(** * dts-generator: a shallow embedding of [index.ts]

    The bundler reads the declaration output of the TypeScript compiler for
    every module of a package and writes one declaration file in which each
    module is wrapped in a [declare module '<id>' { ... }] block.

    Strings are lists of characters, positions are integers ([Z], since
    [String.prototype.slice] gives a meaning to negative indices), the
    abstract syntax tree is a rose tree of nodes carrying the [pos]/[end]
    offsets the compiler assigns, and the output stream is the list of the
    chunks handed to [output.write], in order. *)

From Stdlib Require Import List Ascii String ZArith Lia Bool Arith.
From Stdlib Require Import Numbers.DecimalString.
Import ListNotations.

Set Warnings "-register-all".

Open Scope string_scope.
Open Scope list_scope.
Open Scope Z_scope.

(** ** JavaScript strings *)

Definition jsstring := list ascii.

Coercion list_ascii_of_string : string >-> list.

Module JS.

Definition length (s : jsstring) : Z := Z.of_nat (List.length s).

(** Relative index of [slice]: a negative index counts from the end,
    everything is clamped to [0 .. len]. *)
Definition relative_index (len i : Z) : Z :=
  if i <? 0 then Z.max (len + i) 0 else Z.min i len.

(** [s.slice(start, end)] *)
Definition slice (s : jsstring) (start end_ : Z) : jsstring :=
  let len := length s in
  let from := relative_index len start in
  let to := relative_index len end_ in
  firstn (Z.to_nat (Z.max (to - from) 0)) (skipn (Z.to_nat from) s).

(** [s.slice(start)] *)
Definition slice_from (s : jsstring) (start : Z) : jsstring :=
  slice s start (length s).

Fixpoint eqb (s t : jsstring) : bool :=
  match s, t with
  | [], [] => true
  | a :: s', b :: t' => Ascii.eqb a b && eqb s' t'
  | _, _ => false
  end.

(** [t.indexOf(s) === 0] *)
Fixpoint starts_with (s t : jsstring) : bool :=
  match s, t with
  | [], _ => true
  | a :: s', b :: t' => Ascii.eqb a b && starts_with s' t'
  | _ :: _, [] => false
  end.

(** [s.charAt(0) === c] *)
Definition first_char_is (c : ascii) (s : jsstring) : bool :=
  match s with
  | a :: _ => Ascii.eqb a c
  | [] => false
  end.

(** String conversion of a non-negative integer, as in a template literal. *)
Definition of_N (n : N) : jsstring :=
  list_ascii_of_string (NilEmpty.string_of_uint (N.to_uint n)).

(** [!s] for a string, [s.length === 0] for an array. *)
Definition is_nil {A} (s : list A) : bool :=
  match s with [] => true | _ => false end.

Definition LF : jsstring := ["010"%char].
Definition TAB : jsstring := ["009"%char].
Definition DQUOTE : jsstring := ["034"%char].

(** An array of string literals. *)
Definition strings (l : list string) : list jsstring :=
  map list_ascii_of_string l.

End JS.

(** ** Syntax trees *)

Inductive SyntaxKind :=
| SourceFileKind
| ExternalModuleReference
| DeclareKeyword
| StringLiteral
| ExportDeclaration
| ImportDeclaration
| OtherKind (tag : nat).

Definition SyntaxKind_eqb (a b : SyntaxKind) : bool :=
  match a, b with
  | SourceFileKind, SourceFileKind
  | ExternalModuleReference, ExternalModuleReference
  | DeclareKeyword, DeclareKeyword
  | StringLiteral, StringLiteral
  | ExportDeclaration, ExportDeclaration
  | ImportDeclaration, ImportDeclaration => true
  | OtherKind m, OtherKind n => Nat.eqb m n
  | _, _ => false
  end.

(** A node of the tree. [pos] is the compiler's full start of the node: the
    offset just after the previous token, so that the whitespace and the
    comments in front of the node's first token (its leading trivia) lie
    inside [pos .. end]. [parent] is the kind of [node.parent], [text] the
    [text] property of a literal, and [children] the nodes [ts.forEachChild]
    hands to its callback, in that order; for an external module reference
    the only child is its [expression]. *)
Inductive Node : Type := mkNode {
  kind : SyntaxKind;
  parent : option SyntaxKind;
  pos : Z;
  end_ : Z;
  text : jsstring;
  children : list Node
}.

(** A parsed file: the root node together with the properties of
    [ts.SourceFile] the bundler reads. *)
Module SourceFile.
Record t := mk {
  fileName : jsstring;
  text : jsstring;
  externalModuleIndicator : bool;
  root : Node
}.
End SourceFile.

(** ** The source rewriter *)

(** The two variables [processTree] closes over. *)
Record Cursor := mkCursor {
  code : jsstring;
  cursorPosition : Z
}.

Section ProcessTree.

Variable sourceFile : SourceFile.t.
Variable replacer : Node -> option jsstring.

Definition skip (node : Node) (st : Cursor) : Cursor :=
  {| code := code st; cursorPosition := end_ node |}.

Definition readThrough (node : Node) (st : Cursor) : Cursor :=
  {| code := code st ++
             JS.slice (SourceFile.text sourceFile) (cursorPosition st) (pos node);
     cursorPosition := pos node |}.

Definition append_code (s : jsstring) (st : Cursor) : Cursor :=
  {| code := code st ++ s; cursorPosition := cursorPosition st |}.

(** [replacement != null] holds for every string, the empty one too. *)
Fixpoint visit (node : Node) (st : Cursor) : Cursor :=
  let st := readThrough node st in
  match replacer node with
  | Some replacement => skip node (append_code replacement st)
  | None => fold_left (fun st child => visit child st) (children node) st
  end.

Definition forEachChild_visit (nodes : list Node) (st : Cursor) : Cursor :=
  fold_left (fun st child => visit child st) nodes st.

Definition processTree : jsstring :=
  let st := visit (SourceFile.root sourceFile)
              {| code := []; cursorPosition := 0 |} in
  code st ++ JS.slice_from (SourceFile.text sourceFile) (cursorPosition st).

End ProcessTree.

(** ** The [path] module of the host *)

(** What the bundler uses of Node's [path]: the separator and four functions.
    [resolve] and [join] take their arguments as a list. *)
Class PathUtil := {
  sep : ascii;
  resolve : list jsstring -> jsstring;
  normalize : jsstring -> jsstring;
  join : list jsstring -> jsstring;
  dirname : jsstring -> jsstring
}.

(** Node's implementation for POSIX hosts, with [process.cwd()] a parameter. *)
Module Posix.

Definition slash : ascii := "/"%char.

(** [s.split('/')] *)
Fixpoint split (s : jsstring) : list jsstring :=
  match s with
  | [] => [[]]
  | c :: s' =>
      if Ascii.eqb c slash then [] :: split s'
      else match split s' with
           | part :: parts => (c :: part) :: parts
           | [] => [[c]]
           end
  end.

(** [parts.join('/')] *)
Fixpoint join_parts (parts : list jsstring) : jsstring :=
  match parts with
  | [] => []
  | [p] => p
  | p :: ps => p ++ slash :: join_parts ps
  end.

(** [normalizeArray]; [res] is kept with its last element first. *)
Fixpoint normalizeArray_from (res : list jsstring) (parts : list jsstring)
    (allowAboveRoot : bool) : list jsstring :=
  match parts with
  | [] => rev res
  | p :: ps =>
      if JS.is_nil p || JS.eqb p "." then
        normalizeArray_from res ps allowAboveRoot
      else if JS.eqb p ".." then
        match res with
        | last :: res' =>
            if negb (JS.eqb last "..") then
              normalizeArray_from res' ps allowAboveRoot
            else if allowAboveRoot then
              normalizeArray_from (p :: res) ps allowAboveRoot
            else normalizeArray_from res ps allowAboveRoot
        | [] =>
            if allowAboveRoot then
              normalizeArray_from [p] ps allowAboveRoot
            else normalizeArray_from [] ps allowAboveRoot
        end
      else normalizeArray_from (p :: res) ps allowAboveRoot
  end.

Definition normalizeArray := normalizeArray_from [].

Definition isAbsolute (path : jsstring) : bool := JS.first_char_is slash path.

Definition or_dot (s : jsstring) : jsstring :=
  match s with [] => "." | _ => s end.

(** The loop of [resolve], from the last argument down to the working
    directory, until an absolute path has been prepended. *)
Fixpoint resolve_from (args_rev : list jsstring) (resolvedPath : jsstring)
    : jsstring * bool :=
  match args_rev with
  | [] => (resolvedPath, false)
  | path :: more =>
      match path with
      | [] => resolve_from more resolvedPath
      | _ =>
          let resolvedPath := path ++ slash :: resolvedPath in
          if isAbsolute path then (resolvedPath, true)
          else resolve_from more resolvedPath
      end
  end.

Definition resolve (cwd : jsstring) (args : list jsstring) : jsstring :=
  let '(resolvedPath, resolvedAbsolute) := resolve_from (rev (cwd :: args)) [] in
  let resolvedPath :=
    join_parts (normalizeArray (split resolvedPath) (negb resolvedAbsolute)) in
  or_dot ((if resolvedAbsolute then "/" else []) ++ resolvedPath).

Definition ends_with_slash (path : jsstring) : bool :=
  match rev path with
  | c :: _ => Ascii.eqb c slash
  | [] => false
  end.

Definition normalize (path : jsstring) : jsstring :=
  let absolute := isAbsolute path in
  let trailingSlash := ends_with_slash path in
  let path := join_parts (normalizeArray (split path) (negb absolute)) in
  let path := match path with [] => if absolute then path else "." | _ => path end in
  let path := match path with [] => path | _ => if trailingSlash then path ++ "/" else path end in
  (if absolute then "/" else []) ++ path.

Definition join (args : list jsstring) : jsstring :=
  normalize (join_parts (filter (fun segment => negb (JS.is_nil segment)) args)).

(** The backwards scan of [dirname] over the characters at the indices
    [length path - 1] down to [1], given last first; the result is the
    index [end] the scan stops at. *)
Fixpoint dirname_end (chars_rev : list ascii) (matchedSlash : bool) : option nat :=
  match chars_rev with
  | [] => None
  | c :: more =>
      if Ascii.eqb c slash then
        if negb matchedSlash then Some (S (List.length more))
        else dirname_end more matchedSlash
      else dirname_end more false
  end.

Definition dirname (path : jsstring) : jsstring :=
  match path with
  | [] => "."
  | c :: rest =>
      let hasRoot := Ascii.eqb c slash in
      match dirname_end (rev rest) true with
      | None => if hasRoot then "/" else "."
      | Some e =>
          if hasRoot && Nat.eqb e 1 then "//"
          else firstn e path
      end
  end.

End Posix.

Definition posix (cwd : jsstring) : PathUtil := {|
  sep := Posix.slash;
  resolve := Posix.resolve cwd;
  normalize := Posix.normalize;
  join := Posix.join;
  dirname := Posix.dirname
|}.

(** ** The compiler *)

Module Diagnostic.
Record t := mk {
  file : SourceFile.t;
  start : Z;
  code : N;
  messageText : jsstring
}.
End Diagnostic.

(** The result of [program.emit(sourceFile, writeFile)]: the fields of the
    returned object, and the [(filename, data)] arguments of the calls of
    [writeFile] made, in order, before [emit] returns. *)
Record EmitOutput := mkEmitOutput {
  emitted : list (jsstring * jsstring);
  emitSkipped : bool;
  diagnostics : list Diagnostic.t
}.

Record Program := mkProgram {
  getSourceFiles : list SourceFile.t;
  emit : SourceFile.t -> EmitOutput;
  getSemanticDiagnostics : SourceFile.t -> list Diagnostic.t;
  getSyntacticDiagnostics : SourceFile.t -> list Diagnostic.t;
  getDeclarationDiagnostics : SourceFile.t -> list Diagnostic.t
}.

(** The compiler frontend is a collaborator of the bundler: what it parses,
    emits and reports is left open. [getLineAndCharacterOfPosition] gives
    the line and the character of an offset, both counted from zero. *)
Class TypeScript := {
  ScriptTarget_Latest : N;
  createProgram : list jsstring -> N -> Program;
  createSourceFile : jsstring -> jsstring -> N -> SourceFile.t;
  getLineAndCharacterOfPosition : SourceFile.t -> Z -> N * N
}.

(** ** Diagnostics *)

Module Error.
Record t := mk {
  name : jsstring;
  message : jsstring
}.
End Error.

Section GetError.

Context {ts : TypeScript}.

Definition diagnosticLine (diagnostic : Diagnostic.t) : jsstring :=
  let '(line, character) :=
    getLineAndCharacterOfPosition (Diagnostic.file diagnostic)
      (Diagnostic.start diagnostic) in
  JS.LF ++ SourceFile.fileName (Diagnostic.file diagnostic) ++
  "(" ++ JS.of_N (line + 1) ++ "," ++ JS.of_N (character + 1) ++ "): " ++
  "error TS" ++ JS.of_N (Diagnostic.code diagnostic) ++ ": " ++
  Diagnostic.messageText diagnostic.

Definition getError (diagnostics : list Diagnostic.t) : Error.t :=
  let message :=
    fold_left (fun message diagnostic => message ++ diagnosticLine diagnostic)
      diagnostics "Declaration generation failed" in
  {| Error.name := "EmitterError"; Error.message := message |}.

End GetError.

(** ** File names *)

Section FileNames.

Context {pathUtil : PathUtil}.

(** The separator expression is [/\\/g] on the hosts whose separator is a
    backslash: every separator becomes a slash. *)
Definition filenameToMid (filename : jsstring) : jsstring :=
  if Ascii.eqb sep "/" then filename
  else map (fun c => if Ascii.eqb c sep then "/"%char else c) filename.

Definition getFilenames (baseDir : jsstring) (files : list jsstring)
    : list jsstring :=
  map (fun filename =>
         let resolvedFilename := resolve [filename] in
         if JS.starts_with baseDir resolvedFilename then resolvedFilename
         else resolve [baseDir; filename])
      files.

End FileNames.

(** ** Indentation *)

(** [content.replace(nonEmptyLineStart, '$&' + indent)], where
    [nonEmptyLineStart] is [new RegExp(eol + '(?!' + eol + '|$)', 'g')].
    The end-of-line string is read as a literal pattern, which is what the
    expression means when [eol] has no character that is special in a
    regular expression ([regexp_literal]), as is the case of the line
    breaks of every host. *)
Module Indent.

Definition regexp_special (c : ascii) : bool :=
  existsb (Ascii.eqb c) (list_ascii_of_string "\^$.|?*+()[]{}").

Definition regexp_literal (eol : jsstring) : bool :=
  forallb (fun c => negb (regexp_special c)) eol.

(** Does the expression match at the start of [rest], the part of the
    subject from [lastIndex] on: [eol], not followed by [eol] nor by the
    end of the subject. *)
Definition nonEmptyLineStart_matches (eol rest : jsstring) : bool :=
  JS.starts_with eol rest &&
  let following := skipn (List.length eol) rest in
  negb (JS.starts_with eol following || JS.is_nil following).

(** The expansion of a replacement pattern for an expression without
    capture groups: [$$], [$&], [$`] and [$']; any other [$] stands for
    itself. *)
Fixpoint getSubstitution (matched before following : jsstring)
    (replacement : jsstring) : jsstring :=
  match replacement with
  | [] => []
  | c :: more =>
      if Ascii.eqb c "$" then
        match more with
        | d :: more' =>
            if Ascii.eqb d "$" then
              "$"%char :: getSubstitution matched before following more'
            else if Ascii.eqb d "&" then
              matched ++ getSubstitution matched before following more'
            else if Ascii.eqb d "`" then
              before ++ getSubstitution matched before following more'
            else if Ascii.eqb d "'" then
              following ++ getSubstitution matched before following more'
            else c :: getSubstitution matched before following more
        | [] => [c]
        end
      else c :: getSubstitution matched before following more
  end.

(** The global replacement: the subject is scanned from left to right;
    [before] is the part already scanned, [rest] the part from
    [lastIndex] on. The fuel bounds the number of steps by the length of
    the subject. *)
Fixpoint replace_from (fuel : nat) (eol replacement before rest : jsstring)
    : jsstring :=
  match fuel with
  | O => rest
  | S fuel' =>
      match rest with
      | [] => []
      | c :: rest' =>
          if nonEmptyLineStart_matches eol rest then
            let following := skipn (List.length eol) rest in
            getSubstitution eol before following replacement ++
            replace_from fuel' eol replacement (before ++ eol) following
          else c :: replace_from fuel' eol replacement (before ++ [c]) rest'
      end
  end.

Definition replace (eol replacement content : jsstring) : jsstring :=
  replace_from (List.length content) eol replacement [] content.

Definition indentLines (eol indent content : jsstring) : jsstring :=
  replace eol ("$&" ++ indent) content.

End Indent.

(** ** The bundler *)

Module Options.
Record t := mk {
  baseDir : jsstring;
  files : list jsstring;
  excludes : option (list jsstring);
  externs : option (list jsstring);
  eol : option jsstring;
  includes : option (list jsstring);
  indent : option jsstring;
  main : option jsstring;
  name : jsstring;
  out : jsstring;
  target : option N
}.
End Options.

(** What a run has done so far: the chunks passed to [output.write], the
    messages passed to [sendMessage], the error the promise was rejected
    with, and whether [output.end()] was called. *)
Record Run := mkRun {
  written : list jsstring;
  messages : list jsstring;
  rejected : option Error.t;
  ended : bool
}.

Definition started : Run :=
  {| written := []; messages := []; rejected := None; ended := false |}.

Definition write (chunk : jsstring) (run : Run) : Run :=
  {| written := written run ++ [chunk]; messages := messages run;
     rejected := rejected run; ended := ended run |}.

Definition sendMessage (message : jsstring) (run : Run) : Run :=
  {| written := written run; messages := messages run ++ [message];
     rejected := rejected run; ended := ended run |}.

(** A promise is settled once: a later [reject] changes nothing. *)
Definition reject (error : Error.t) (run : Run) : Run :=
  {| written := written run; messages := messages run;
     rejected := match rejected run with
                 | Some e => Some e
                 | None => Some error
                 end;
     ended := ended run |}.

Definition end_output (run : Run) : Run :=
  {| written := written run; messages := messages run;
     rejected := rejected run; ended := true |}.

(** The file the bundle is made of: the concatenation of the chunks. *)
Definition output (run : Run) : jsstring := List.concat (written run).

Section Generate.

Context {pathUtil : PathUtil} {ts : TypeScript}.
Variable os_EOL : jsstring.
Variable options : Options.t.

Definition baseDir : jsstring := resolve [Options.baseDir options].

(** [options.eol || os.EOL]: the empty string is falsy. *)
Definition eol : jsstring :=
  match Options.eol options with
  | Some (c :: e) => c :: e
  | _ => os_EOL
  end.

Definition indent : jsstring :=
  match Options.indent options with
  | None => JS.TAB
  | Some indent => indent
  end.

(** [options.target || ts.ScriptTarget.Latest]: the target [0] is falsy. *)
Definition target : N :=
  match Options.target options with
  | Some 0%N | None => ScriptTarget_Latest
  | Some t => t
  end.

Definition filenames : list jsstring :=
  getFilenames baseDir (Options.files options).

(** The keys of [excludesMap]; a file name is looked up among them. *)
Definition excludesMap : list jsstring :=
  match Options.excludes options with
  | Some excludes => map (fun filename => resolve [baseDir; filename]) excludes
  | None => []
  end.

Definition program : Program := createProgram filenames target.

Definition sourceModuleId (filename : jsstring) : jsstring :=
  Options.name options ++
  filenameToMid (JS.slice filename (JS.length baseDir) (-5)).

(** [node.expression] of an external module reference. *)
Definition expression (node : Node) : option Node := hd_error (children node).

Definition parent_is (k : SyntaxKind) (node : Node) : bool :=
  match parent node with
  | Some k' => SyntaxKind_eqb k' k
  | None => false
  end.

(** The replacer [writeDeclaration] hands to [processTree]. The types of
    the compiler give every external module reference an [expression], and
    every node but the root a [parent]; the root is no string literal. *)
Definition declarationReplacer (sourceModuleId : jsstring) (node : Node)
    : option jsstring :=
  if SyntaxKind_eqb (kind node) ExternalModuleReference then
    match expression node with
    | Some expression =>
        if JS.first_char_is "." (text expression) then
          Some (" require('" ++
                join [dirname sourceModuleId; text expression] ++ "')")
        else None
    | None => None
    end
  else if SyntaxKind_eqb (kind node) DeclareKeyword then Some []
  else if SyntaxKind_eqb (kind node) StringLiteral &&
          (parent_is ExportDeclaration node || parent_is ImportDeclaration node)
  then
    if JS.first_char_is "." (text node) then
      Some (" '" ++ join [dirname sourceModuleId; text node] ++ "'")
    else None
  else None.

Definition writeDeclaration (declarationFile : SourceFile.t) (run : Run) : Run :=
  let filename := SourceFile.fileName declarationFile in
  let sourceModuleId := sourceModuleId filename in
  if SourceFile.externalModuleIndicator declarationFile then
    let run := write ("declare module '" ++ sourceModuleId ++ "' {" ++ eol ++ indent) run in
    let content := processTree declarationFile (declarationReplacer sourceModuleId) in
    let run := write (Indent.indentLines eol indent content) run in
    write (eol ++ "}" ++ eol) run
  else write (SourceFile.text declarationFile) run.

Definition is_declaration_name (filename : jsstring) : bool :=
  JS.eqb (JS.slice_from filename (-5)) ".d.ts".

Definition writeFile (filename data : jsstring) (run : Run) : Run :=
  if negb (is_declaration_name filename) then run
  else writeDeclaration (createSourceFile filename data target) run.

Definition emitterDiagnostics (sourceFile : SourceFile.t) (emitOutput : EmitOutput)
    : list Diagnostic.t :=
  diagnostics emitOutput
  ++ getSemanticDiagnostics program sourceFile
  ++ getSyntacticDiagnostics program sourceFile
  ++ getDeclarationDiagnostics program sourceFile.

(** The callback of [program.getSourceFiles().some(...)]: the run after
    the call, and whether the callback returned [true]. *)
Definition processSourceFile (sourceFile : SourceFile.t) (run : Run) : bool * Run :=
  if negb (JS.starts_with baseDir (normalize (SourceFile.fileName sourceFile)))
  then (false, run)
  else if existsb (JS.eqb (SourceFile.fileName sourceFile)) excludesMap
  then (false, run)
  else
    let run := sendMessage ("Processing " ++ SourceFile.fileName sourceFile) run in
    if is_declaration_name (SourceFile.fileName sourceFile) then
      (false, writeDeclaration sourceFile run)
    else
      let emitOutput := emit program sourceFile in
      let run :=
        fold_left (fun run '(filename, data) => writeFile filename data run)
          (emitted emitOutput) run in
      if emitSkipped emitOutput || negb (JS.is_nil (diagnostics emitOutput))
      then (true, reject (getError (emitterDiagnostics sourceFile emitOutput)) run)
      else (false, run).

(** [Array.prototype.some]: the iteration stops at the first [true]. *)
Fixpoint some_sourceFiles (sourceFiles : list SourceFile.t) (run : Run) : Run :=
  match sourceFiles with
  | [] => run
  | sourceFile :: more =>
      let '(stop, run) := processSourceFile sourceFile run in
      if stop then run else some_sourceFiles more run
  end.

Definition writeExterns (run : Run) : Run :=
  match Options.externs options with
  | Some externs =>
      fold_left
        (fun run path =>
           write ("/// <reference path=" ++ JS.DQUOTE ++ path ++ JS.DQUOTE ++ " />" ++ eol)
             (sendMessage ("Writing external dependency " ++ path) run))
        externs run
  | None => run
  end.

(** [if (options.main)]: the empty string is falsy. *)
Definition writeMain (run : Run) : Run :=
  match Options.main options with
  | Some (c :: m) =>
      let main := c :: m in
      let run := write ("declare module '" ++ Options.name options ++ "' {" ++ eol ++ indent) run in
      let run := write ("import main = require('" ++ main ++ "');" ++ eol ++ indent) run in
      let run := write ("export = main;" ++ eol) run in
      let run := write ("}" ++ eol) run in
      sendMessage ("Aliased main module " ++ Options.name options ++ " to " ++ main) run
  | _ => run
  end.

Definition generate : Run :=
  let run := writeExterns started in
  let run := some_sourceFiles (getSourceFiles program) run in
  let run := writeMain run in
  end_output run.

End Generate.

(** ** Well-formed trees and the spans of a rewriting *)

(** The trees the parser builds: the children of a node lie inside the node,
    in the order of the text, and do not overlap. *)
Section WellFormed.

Variable well_formed : Node -> bool.

Fixpoint ordered_from (lo hi : Z) (nodes : list Node) : bool :=
  match nodes with
  | [] => lo <=? hi
  | child :: more =>
      (lo <=? pos child) && well_formed child && ordered_from (end_ child) hi more
  end.

End WellFormed.

Fixpoint well_formed (node : Node) : bool :=
  (pos node <=? end_ node) &&
  ordered_from well_formed (pos node) (end_ node) (children node).

Definition well_formed_file (sourceFile : SourceFile.t) : bool :=
  (0 <=? pos (SourceFile.root sourceFile)) &&
  (end_ (SourceFile.root sourceFile) <=? JS.length (SourceFile.text sourceFile)) &&
  well_formed (SourceFile.root sourceFile).

(** A piece of the rewriter's output: a span of the source copied through,
    or the replacement of a node, which stands for the span of that node. *)
Inductive Span :=
| Through (from to : Z)
| Replaced (node : Node) (replacement : jsstring).

Definition span_from (s : Span) : Z :=
  match s with
  | Through from _ => from
  | Replaced node _ => pos node
  end.

Definition span_to (s : Span) : Z :=
  match s with
  | Through _ to => to
  | Replaced node _ => end_ node
  end.

Definition span_text (sourceText : jsstring) (s : Span) : jsstring :=
  match s with
  | Through from to => JS.slice sourceText from to
  | Replaced _ replacement => replacement
  end.

(** The spans follow each other from [from] to [to]: each starts where the
    one before it ends, and none runs backwards. *)
Fixpoint tiles (from : Z) (spans : list Span) (to : Z) : Prop :=
  match spans with
  | [] => from = to
  | s :: more =>
      span_from s = from /\ span_from s <= span_to s /\ tiles (span_to s) more to
  end.

(** [node] is [ancestor] or a node below it. *)
Inductive within (node : Node) : Node -> Prop :=
| within_self : within node node
| within_child child ancestor :
    In child (children ancestor) -> within node child -> within node ancestor.

(** A replaced span is one the replacer asked for, for a node in [scope]. *)
Definition span_of (replacer : Node -> option jsstring) (scope : Node -> Prop)
    (s : Span) : Prop :=
  match s with
  | Through _ _ => True
  | Replaced node replacement => replacer node = Some replacement /\ scope node
  end.

(** What a stretch of the traversal does: it appends to [code] the text
    of spans that lead from the old cursor to the new one. *)
Definition advances (sourceFile : SourceFile.t) (replacer : Node -> option jsstring)
    (scope : Node -> Prop) (st st' : Cursor) (spans : list Span) : Prop :=
  code st' = code st ++ flat_map (span_text (SourceFile.text sourceFile)) spans
  /\ tiles (cursorPosition st) spans (cursorPosition st')
  /\ Forall (span_of replacer scope) spans.

Definition visit_covers (sourceFile : SourceFile.t)
    (replacer : Node -> option jsstring) (node : Node) : Prop :=
  forall st,
    well_formed node = true ->
    cursorPosition st <= pos node ->
    exists spans,
      advances sourceFile replacer (fun n => within n node) st
        (visit sourceFile replacer node st) spans
      /\ pos node <= cursorPosition (visit sourceFile replacer node st) <= end_ node.

(** The nodes of a list and the nodes below them. *)
Definition within_some (nodes : list Node) (node : Node) : Prop :=
  exists child, In child nodes /\ within node child.

(** ** Sample files *)

Definition token (k : SyntaxKind) (p : SyntaxKind) (from to : Z) : Node :=
  mkNode k (Some p) from to [] [].

(** [export declare var x: number;] as the compiler parses it: the
    [declare] keyword is the node from offset 6, the blank in front of it
    included, to offset 14. *)
Definition declare_var : SourceFile.t :=
  SourceFile.mk "/base/v.d.ts" "export declare var x: number;" true
    (mkNode SourceFileKind None 0 29 []
       [ mkNode (OtherKind 1) (Some SourceFileKind) 0 29 []
           [ token (OtherKind 2) (OtherKind 1) 0 6;
             token DeclareKeyword (OtherKind 1) 6 14;
             mkNode (OtherKind 3) (Some (OtherKind 1)) 14 28 []
               [ mkNode (OtherKind 4) (Some (OtherKind 3)) 18 28 []
                   [ token (OtherKind 5) (OtherKind 4) 18 20;
                     token (OtherKind 6) (OtherKind 4) 21 28 ] ] ];
         token (OtherKind 7) SourceFileKind 29 29 ]).

(** [import x = require('./x');]: the external module reference is the node
    from offset 10, the blank after [=] included, to offset 25. *)
Definition import_x : SourceFile.t :=
  SourceFile.mk "/base/a/b.d.ts" "import x = require('./x');" true
    (mkNode SourceFileKind None 0 26 []
       [ mkNode (OtherKind 8) (Some SourceFileKind) 0 26 []
           [ token (OtherKind 5) (OtherKind 8) 6 8;
             mkNode ExternalModuleReference (Some (OtherKind 8)) 10 25 []
               [ mkNode StringLiteral (Some ExternalModuleReference) 19 24 "./x" [] ] ];
         token (OtherKind 7) SourceFileKind 26 26 ]).

Definition remove_declare (node : Node) : option jsstring :=
  if SyntaxKind_eqb (kind node) DeclareKeyword then Some [] else None.

(** ** File names under the base directory *)

(** The name of a file below a directory on a host: each component of the
    relative path follows a separator. *)
Definition path_under (separator : ascii) (directory : jsstring)
    (components : list jsstring) : jsstring :=
  directory ++ flat_map (cons separator) components.

Definition backslash : ascii := "\"%char.


(** The separators of the hosts of Node. *)
Definition host_separator (separator : ascii) : bool :=
  Ascii.eqb separator "/" || Ascii.eqb separator backslash.

(** No component contains the separator. *)
Definition separator_free (separator : ascii) (components : list jsstring) : bool :=
  forallb (fun component => negb (existsb (Ascii.eqb separator) component)) components.

(** A host whose separator is the backslash. Only the separator bears on a
    module identifier; the functions stand for a working directory [C:\]
    and paths that are already absolute and normalized. *)
Definition backslash_host : PathUtil := {|
  sep := backslash;
  resolve := fun paths => last paths "C:\";
  normalize := fun path => path;
  join := fun paths => List.concat paths;
  dirname := fun path => path
|}.

Definition mylib_options (baseDir : string) : Options.t := {|
  Options.baseDir := baseDir;
  Options.files := [];
  Options.excludes := None;
  Options.externs := None;
  Options.eol := Some JS.LF;
  Options.includes := None;
  Options.indent := None;
  Options.main := None;
  Options.name := "mylib";
  Options.out := "mylib.d.ts";
  Options.target := None
|}.

(** ** Lines *)

Module Lines.

(** The lines of a text: the parts between the occurrences of the line
    break, found from left to right; neighbouring line breaks, and a line
    break at either end, give empty lines. The fuel bounds the number of
    steps by the length of the text. *)
Fixpoint split_from (fuel : nat) (eol rest : jsstring) : jsstring * list jsstring :=
  match fuel with
  | O => (rest, [])
  | S fuel' =>
      match rest with
      | [] => ([], [])
      | c :: rest' =>
          if negb (JS.is_nil eol) && JS.starts_with eol rest then
            let '(line, more) := split_from fuel' eol (skipn (List.length eol) rest) in
            ([], line :: more)
          else
            let '(line, more) := split_from fuel' eol rest' in
            (c :: line, more)
      end
  end.

Definition split (eol content : jsstring) : jsstring * list jsstring :=
  split_from (List.length content) eol content.

(** The text made of a first line and of further lines, each after a line
    break. *)
Definition unlines (eol : jsstring) (lines : jsstring * list jsstring) : jsstring :=
  fst lines ++ flat_map (fun line => eol ++ line) (snd lines).

(** The same text with the indent in front of every line that is neither
    the first one nor empty. *)
Definition indented (eol indent : jsstring) (lines : jsstring * list jsstring)
    : jsstring :=
  fst lines ++
  flat_map (fun line => eol ++ match line with
                               | [] => []
                               | _ => indent ++ line
                               end)
    (snd lines).

(** No line break starts inside the line when a line break follows it. *)
Fixpoint no_line_break (eol line : jsstring) : bool :=
  match line with
  | [] => true
  | _ :: line' => negb (JS.starts_with eol (line ++ eol)) && no_line_break eol line'
  end.

(** No proper suffix of the line break, taken among the suffixes of
    [suffix], is a prefix of it. *)
Fixpoint no_border (eol suffix : jsstring) : bool :=
  match suffix with
  | [] => true
  | _ :: suffix' => negb (JS.starts_with suffix eol) && no_border eol suffix'
  end.

(** A line break that cannot overlap itself, as [\n] and [\r\n]. *)
Definition border_free (eol : jsstring) : bool :=
  match eol with
  | [] => false
  | _ :: suffix => no_border eol suffix
  end.

(** The indent has no [$], so the replacement pattern [$&<indent>] stands
    for the line break followed by the indent. *)
Definition plain (indent : jsstring) : bool :=
  negb (existsb (Ascii.eqb "$") indent).

(** The rest of a text after a line: nothing, or a line break and more. *)
Definition at_break (eol rest : jsstring) : Prop :=
  rest = [] \/ exists rest', rest = eol ++ rest'.

End Lines.

Definition CRLF : jsstring := ["013"%char; "010"%char].

(** ** Sample runs *)

(** Line and character of an offset, both from zero, for line feeds. *)
Fixpoint lineAndCharacter (sourceText : jsstring) (offset : nat) (line character : N)
    : N * N :=
  match offset, sourceText with
  | S offset', c :: rest =>
      if Ascii.eqb c "010" then lineAndCharacter rest offset' (line + 1)%N 0%N
      else lineAndCharacter rest offset' line (character + 1)%N
  | _, _ => (line, character)
  end.

(** A compiler frontend that knows the given files only: [emit] says what
    it writes and reports for each, [parse] what it makes of a written
    declaration. *)
Definition sample_compiler (sourceFiles : list SourceFile.t)
    (emit : SourceFile.t -> EmitOutput)
    (parse : jsstring -> jsstring -> SourceFile.t) : TypeScript := {|
  ScriptTarget_Latest := 2%N;
  createProgram := fun _ _ =>
    {| getSourceFiles := sourceFiles;
       emit := emit;
       getSemanticDiagnostics := fun _ => [];
       getSyntacticDiagnostics := fun _ => [];
       getDeclarationDiagnostics := fun _ => [] |};
  createSourceFile := fun filename data _ => parse filename data;
  getLineAndCharacterOfPosition := fun sourceFile offset =>
    lineAndCharacter (SourceFile.text sourceFile) (Z.to_nat offset) 0%N 0%N
|}.

Definition leaf_file (filename data : jsstring) (externalModule : bool) : SourceFile.t :=
  SourceFile.mk filename data externalModule
    (mkNode SourceFileKind None 0 (JS.length data) [] []).

(** [var n: number = 'x';], a module with a type error. *)
Definition bad_module : SourceFile.t :=
  leaf_file "/base/bad.ts" "export var n: number = 'x';" true.

Definition bad_diagnostic : Diagnostic.t :=
  Diagnostic.mk bad_module 11 2322%N "Type 'string' is not assignable to type 'number'.".

(** An ambient declaration file. *)
Definition ambient_file : SourceFile.t :=
  leaf_file "/base/globals.d.ts" ("declare var g: string;" ++ JS.LF) false.

Definition emit_failing (sourceFile : SourceFile.t) : EmitOutput :=
  {| emitted := []; emitSkipped := false; diagnostics := [bad_diagnostic] |}.

Definition emit_nothing (sourceFile : SourceFile.t) : EmitOutput :=
  {| emitted := []; emitSkipped := false; diagnostics := [] |}.

Definition parse_module (filename data : jsstring) : SourceFile.t :=
  leaf_file filename data true.

Definition pkg_options (files : list string) (main : option string) : Options.t := {|
  Options.baseDir := "/base";
  Options.files := JS.strings files;
  Options.excludes := None;
  Options.externs := None;
  Options.eol := Some JS.LF;
  Options.includes := None;
  Options.indent := None;
  Options.main := option_map list_ascii_of_string main;
  Options.name := "pkg";
  Options.out := "/out/pkg.d.ts";
  Options.target := None
|}.

(** The diagnostic line as the specification words it, with [T] in front of
    the code. *)
Definition spec_diagnosticLine (fileName : jsstring) (line column code : N)
    (messageText : jsstring) : jsstring :=
  fileName ++ "(" ++ JS.of_N line ++ "," ++ JS.of_N column ++ "): error T"
  ++ JS.of_N code ++ ": " ++ messageText.

(** The alias block of a namespace for a required module, with the line
    break and the indent of the run. *)
Definition alias_block (eol indent name required : jsstring) : list jsstring :=
  [ "declare module '" ++ name ++ "' {" ++ eol ++ indent;
    "import main = require('" ++ required ++ "');" ++ eol ++ indent;
    "export = main;" ++ eol;
    "}" ++ eol ].

(** Does [needle] occur in [s]? *)
Fixpoint occurs_in (needle s : jsstring) : bool :=
  JS.starts_with needle s ||
  match s with
  | [] => false
  | _ :: s' => occurs_in needle s'
  end.

(** A tree no parser builds: the second child starts before the first. *)
Definition out_of_order : SourceFile.t :=
  SourceFile.mk "/base/o.d.ts" "abcdef" true
    (mkNode SourceFileKind None 0 6 []
       [ token (OtherKind 2) SourceFileKind 4 6;
         token (OtherKind 2) SourceFileKind 0 4 ]).

(** ** The parts of a run *)

(** A step that only appends chunks and messages to a run. *)
Definition appends (chunks messages' : list jsstring) (run : Run) : Run :=
  {| written := written run ++ chunks; messages := messages run ++ messages';
     rejected := rejected run; ended := ended run |}.

(** The file is below the base directory and is not excluded. *)
Definition included {pathUtil : PathUtil} (options : Options.t)
    (sourceFile : SourceFile.t) : bool :=
  JS.starts_with (baseDir options) (normalize (SourceFile.fileName sourceFile))
  && negb (existsb (JS.eqb (SourceFile.fileName sourceFile)) (excludesMap options)).

(** The file is one the emitter is asked for, and the emitter skips it or
    reports a diagnostic. *)
Definition fails {pathUtil : PathUtil} {ts : TypeScript} (options : Options.t)
    (sourceFile : SourceFile.t) : bool :=
  included options sourceFile
  && negb (is_declaration_name (SourceFile.fileName sourceFile))
  && (emitSkipped (emit (program options) sourceFile)
      || negb (JS.is_nil (diagnostics (emit (program options) sourceFile)))).

(** The chunks [writeDeclaration] writes for a file. *)
Definition declaration_chunks {pathUtil : PathUtil} (os_EOL : jsstring)
    (options : Options.t) (declarationFile : SourceFile.t) : list jsstring :=
  written (writeDeclaration os_EOL options declarationFile started).

(** The chunks written for the files the emitter writes: those of the
    declarations among them. *)
Definition emitted_chunks {pathUtil : PathUtil} {ts : TypeScript} (os_EOL : jsstring)
    (options : Options.t) (files : list (jsstring * jsstring)) : list jsstring :=
  flat_map
    (fun '(filename, data) =>
       if is_declaration_name filename then
         declaration_chunks os_EOL options
           (createSourceFile filename data (target options))
       else [])
    files.

(** The chunks the callback of the iteration writes for a file. *)
Definition chunks_of {pathUtil : PathUtil} {ts : TypeScript} (os_EOL : jsstring)
    (options : Options.t) (sourceFile : SourceFile.t) : list jsstring :=
  written (snd (processSourceFile os_EOL options sourceFile started)).

(** The items up to the first one that fails, that one included. *)
Fixpoint until_failure {A} (failing : A -> bool) (items : list A) : list A :=
  match items with
  | [] => []
  | item :: more =>
      if failing item then [item] else item :: until_failure failing more
  end.

(** ** Path segments *)

(** A name of a file or of a directory: not empty, without a slash, and
    neither [.] nor [..]. *)
Definition plain_segment (segment : jsstring) : bool :=
  negb (JS.is_nil segment)
  && negb (existsb (Ascii.eqb Posix.slash) segment)
  && negb (JS.eqb segment ".")
  && negb (JS.eqb segment "..").

(** An external module reference, or a string literal in an import or
    export declaration, with the given path. *)
Definition reference_to (path : jsstring) : Node :=
  mkNode ExternalModuleReference (Some (OtherKind 8)) 10 25 []
    [ mkNode StringLiteral (Some ExternalModuleReference) 19 24 path [] ].

Definition from_literal (declaration : SyntaxKind) (path : jsstring) : Node :=
  mkNode StringLiteral (Some declaration) 0 0 path [].


(** ** Further sample runs *)

(** A module and what the emitter writes for it: the JavaScript and the
    declaration. *)
Definition module_a : SourceFile.t :=
  leaf_file "/base/a.ts" "export var a = 1;" true.

Definition emit_both (sourceFile : SourceFile.t) : EmitOutput :=
  {| emitted := [ ("/base/a.js" : jsstring, "exports.a = 1;" : jsstring);
                  ("/base/a.d.ts" : jsstring, "export declare var a: number;" : jsstring) ];
     emitSkipped := false;
     diagnostics := [] |}.


(** The nodes of a tree: the node and the nodes of its children, in the
    order of the traversal. *)
Fixpoint nodes (node : Node) : list Node :=
  node :: flat_map nodes (children node).


(** The nodes [writeDeclaration] rewrites: the [declare] keyword, the
    external module reference with a relative path, and the relative
    string literal of an import or export declaration. *)
Definition rewritable (node : Node) : bool :=
  match kind node with
  | ExternalModuleReference =>
      match hd_error (children node) with
      | Some literal => JS.first_char_is "." (text literal)
      | None => false
      end
  | DeclareKeyword => true
  | StringLiteral =>
      match parent node with
      | Some ExportDeclaration | Some ImportDeclaration =>
          JS.first_char_is "." (text node)
      | _ => false
      end
  | _ => false
  end.

(** [export var a: number;] followed by a line break, with an import of a
    package that is not relative. *)
Definition plain_module : SourceFile.t :=
  SourceFile.mk "/base/p.d.ts" ("import q = require('q');" ++ JS.LF ++ "export var a: q.T;") true
    (mkNode SourceFileKind None 0 43 []
       [ mkNode (OtherKind 8) (Some SourceFileKind) 0 24 []
           [ token (OtherKind 5) (OtherKind 8) 6 8;
             mkNode ExternalModuleReference (Some (OtherKind 8)) 10 23 []
               [ mkNode StringLiteral (Some ExternalModuleReference) 19 22 "q" [] ] ];
         token (OtherKind 1) SourceFileKind 24 43;
         token (OtherKind 7) SourceFileKind 43 43 ]).

(** The two shapes of a relative reference and what is written for them. *)
Definition rewritten_to {pathUtil : PathUtil} (here relative there : jsstring) : Prop :=
  (forall node literal,
      kind node = ExternalModuleReference ->
      expression node = Some literal ->
      text literal = relative ->
      declarationReplacer here node = Some (" require('" ++ there ++ "')"))
  /\ (forall node,
         kind node = StringLiteral ->
         parent node = Some ImportDeclaration \/ parent node = Some ExportDeclaration ->
         text node = relative ->
         declarationReplacer here node = Some (" '" ++ there ++ "'")).

(** * Properties *)

(** ** The path module *)

Example posix_path_samples :
  Posix.resolve "/home/u" (JS.strings ["lib"; "../src/./a.ts"]) = "/home/u/src/a.ts"
  /\ Posix.resolve "/home/u" (JS.strings ["/base"; "x/"]) = "/base/x"
  /\ Posix.resolve "/" [] = "/"
  /\ Posix.normalize "a//b/../c/" = "a/c/"
  /\ Posix.normalize "" = "."
  /\ Posix.normalize "/.." = "/"
  /\ Posix.normalize "../a/../.." = "../.."
  /\ Posix.join (JS.strings ["mylib/a"; "./x"]) = "mylib/a/x"
  /\ Posix.join (JS.strings [""; ""]) = "."
  /\ Posix.dirname "mylib/a/b" = "mylib/a"
  /\ Posix.dirname "mylib" = "."
  /\ Posix.dirname "/a" = "/"
  /\ Posix.dirname "/a/b/" = "/a"
  /\ Posix.dirname "//a" = "//"
  /\ Posix.dirname "a//b" = "a/"
  /\ JS.of_N 0 = "0" /\ JS.of_N 1205 = "1205".
Proof. repeat split; vm_compute; reflexivity. Qed.

(** ** Strings *)

Lemma firstn_skipn_chain {A} (s : list A) (i j k : nat) :
  (i <= j <= k)%nat ->
  firstn (j - i) (skipn i s) ++ firstn (k - j) (skipn j s)
  = firstn (k - i) (skipn i s).
Proof.
  intros Hijk.
  assert (Hj : skipn j s = skipn (j - i) (skipn i s))
    by (rewrite skipn_skipn; f_equal; lia).
  rewrite Hj.
  replace (k - i)%nat with ((j - i) + (k - j))%nat by lia.
  generalize (skipn i s) as l, (j - i)%nat as n, (k - j)%nat as m.
  intros l n; revert l.
  induction n as [|n IH]; intros [|a l] m; simpl; try reflexivity.
  - now rewrite firstn_nil.
  - now rewrite IH.
Qed.

Lemma slice_nonneg (s : jsstring) (a b : Z) :
  0 <= a -> 0 <= b ->
  JS.slice s a b
  = firstn (Z.to_nat (Z.min b (JS.length s)) - Z.to_nat (Z.min a (JS.length s)))
      (skipn (Z.to_nat (Z.min a (JS.length s))) s).
Proof.
  intros Ha Hb. unfold JS.slice, JS.relative_index.
  destruct (Z.ltb_spec a 0); [lia|]. destruct (Z.ltb_spec b 0); [lia|].
  f_equal. unfold JS.length. lia.
Qed.

Lemma slice_append (s : jsstring) (a b c : Z) :
  0 <= a <= b -> b <= c ->
  JS.slice s a b ++ JS.slice s b c = JS.slice s a c.
Proof.
  intros Hab Hbc. rewrite !slice_nonneg by lia.
  apply firstn_skipn_chain. unfold JS.length. lia.
Qed.

Lemma slice_from_zero (s : jsstring) : JS.slice_from s 0 = s.
Proof.
  unfold JS.slice_from. rewrite slice_nonneg by (unfold JS.length; lia).
  unfold JS.length. rewrite Z.min_id, Z.min_l by lia.
  simpl. rewrite Nat2Z.id, Nat.sub_0_r. apply firstn_all.
Qed.

Lemma slice_append_from (s : jsstring) (a b : Z) :
  0 <= a <= b -> b <= JS.length s ->
  JS.slice s a b ++ JS.slice_from s b = JS.slice_from s a.
Proof. intros. unfold JS.slice_from. now apply slice_append. Qed.

(** ** The source rewriter *)

(** Induction on trees: a property holds of a node when it holds of its
    children. *)
Lemma Node_children_ind (P : Node -> Prop) :
  (forall node, Forall P (children node) -> P node) ->
  forall node, P node.
Proof.
  intros step.
  fix IH 1.
  intros [k p a b t cs]. apply step. simpl.
  induction cs as [|c cs IHcs]; constructor.
  - apply IH.
  - exact IHcs.
Qed.

Section Coverage.

Variable sourceFile : SourceFile.t.
Variable replacer : Node -> option jsstring.

Local Abbreviation sourceText := (SourceFile.text sourceFile).
Local Abbreviation advances := (advances sourceFile replacer).
Local Abbreviation visit_covers := (visit_covers sourceFile replacer).

Lemma advances_refl scope st : advances scope st st [].
Proof.
  repeat split; simpl; auto. now rewrite app_nil_r.
Qed.

Lemma tiles_app a spans b spans' c :
  tiles a spans b -> tiles b spans' c -> tiles a (spans ++ spans') c.
Proof.
  revert a. induction spans as [|s spans IH]; simpl; intros a.
  - now intros ->.
  - intros (Hfrom & Hle & Hrest) H'. repeat split; auto.
Qed.

Lemma advances_trans scope st1 st2 st3 spans spans' :
  advances scope st1 st2 spans -> advances scope st2 st3 spans' ->
  advances scope st1 st3 (spans ++ spans').
Proof.
  intros (Hc & Ht & Hf) (Hc' & Ht' & Hf'). repeat split.
  - now rewrite Hc', Hc, flat_map_app, app_assoc.
  - eapply tiles_app; eassumption.
  - apply Forall_app; auto.
Qed.

Lemma advances_scope (scope scope' : Node -> Prop) st st' spans :
  (forall node, scope node -> scope' node) ->
  advances scope st st' spans -> advances scope' st st' spans.
Proof.
  intros Himpl (Hc & Ht & Hf). repeat split; auto.
  eapply Forall_impl; [|exact Hf].
  intros [from to|node replacement]; simpl; [auto|].
  intros [Hrep Hscope]. auto.
Qed.

Lemma forEachChild_covers (nodes : list Node) :
  Forall visit_covers nodes ->
  forall lo hi st,
    ordered_from well_formed lo hi nodes = true ->
    cursorPosition st <= lo ->
    exists spans,
      advances (within_some nodes) st
        (forEachChild_visit sourceFile replacer nodes st) spans
      /\ cursorPosition (forEachChild_visit sourceFile replacer nodes st) <= hi.
Proof.
  induction 1 as [|child more Hchild _ IH]; intros lo hi st Hord Hcur; simpl in *.
  - exists []. split; [apply advances_refl|]. apply Z.leb_le in Hord. lia.
  - apply andb_prop in Hord as [Hord Hmore]. apply andb_prop in Hord as [Hlo Hwf].
    apply Z.leb_le in Hlo.
    destruct (Hchild st Hwf) as (spans & Hadv & Hpos); [lia|].
    destruct (IH (end_ child) hi (visit sourceFile replacer child st) Hmore)
      as (spans' & Hadv' & Hhi); [lia|].
    exists (spans ++ spans'). split; [|exact Hhi].
    eapply advances_trans.
    + eapply advances_scope; [|exact Hadv].
      intros node Hnode. exists child. split; [now left|exact Hnode].
    + eapply advances_scope; [|exact Hadv'].
      intros node (child' & Hin & Hnode). exists child'. split; [now right|exact Hnode].
Qed.

Lemma forEachChild_cursor_lower (nodes : list Node) :
  Forall visit_covers nodes ->
  forall lo hi st,
    ordered_from well_formed lo hi nodes = true ->
    cursorPosition st <= lo ->
    cursorPosition st
    <= cursorPosition (forEachChild_visit sourceFile replacer nodes st).
Proof.
  induction 1 as [|child more Hchild _ IH]; intros lo hi st Hord Hcur; simpl in *.
  - lia.
  - apply andb_prop in Hord as [Hord Hmore]. apply andb_prop in Hord as [Hlo Hwf].
    apply Z.leb_le in Hlo.
    destruct (Hchild st Hwf) as (spans & Hadv & Hpos); [lia|].
    specialize (IH (end_ child) hi (visit sourceFile replacer child st) Hmore).
    unfold forEachChild_visit in *. lia.
Qed.

Lemma visit_unfold node st :
  visit sourceFile replacer node st
  = match replacer node with
    | Some replacement =>
        skip node (append_code replacement (readThrough sourceFile node st))
    | None =>
        forEachChild_visit sourceFile replacer (children node)
          (readThrough sourceFile node st)
    end.
Proof. destruct node; reflexivity. Qed.

Lemma readThrough_advances scope node st :
  cursorPosition st <= pos node ->
  advances scope st (readThrough sourceFile node st)
    [Through (cursorPosition st) (pos node)].
Proof.
  intros Hle. unfold advances. simpl. rewrite app_nil_r.
  repeat (split; try reflexivity; try assumption).
  repeat constructor.
Qed.

Lemma visit_covers_all node : visit_covers node.
Proof.
  induction node as [node IH] using Node_children_ind.
  intros st Hwf Hcur. rewrite visit_unfold.
  assert (Hnode : well_formed node
                  = (pos node <=? end_ node)
                    && ordered_from well_formed (pos node) (end_ node) (children node))
    by (destruct node; reflexivity).
  rewrite Hnode in Hwf.
  apply andb_prop in Hwf as [Hab Hord]. apply Z.leb_le in Hab.
  pose proof (readThrough_advances (fun n => within n node) node st Hcur) as Hread.
  destruct (replacer node) as [replacement|] eqn:Hrep.
  - exists ([Through (cursorPosition st) (pos node)] ++ [Replaced node replacement]).
    split; [|simpl; lia].
    eapply advances_trans; [exact Hread|].
    unfold advances. simpl. rewrite app_nil_r.
    repeat (split; try reflexivity; try assumption).
    repeat constructor. exact Hrep.
  - destruct (forEachChild_covers (children node) IH (pos node) (end_ node)
                (readThrough sourceFile node st) Hord)
      as (spans & Hadv & Hhi); [simpl; lia|].
    pose proof (forEachChild_cursor_lower (children node) IH (pos node) (end_ node)
                  (readThrough sourceFile node st) Hord) as Hlow.
    exists ([Through (cursorPosition st) (pos node)] ++ spans). split.
    + eapply advances_trans; [exact Hread|].
      eapply advances_scope; [|exact Hadv].
      intros n (child & Hin & Hn). eapply within_child; eassumption.
    + simpl in Hlow. split; [apply Hlow; lia|exact Hhi].
Qed.

(** Spans copied through, and nothing else, give back the source between
    the two ends. *)
Lemma through_spans_text spans :
  Forall (fun s => exists from to, s = Through from to) spans ->
  forall a b, 0 <= a -> tiles a spans b ->
  a <= b /\ flat_map (span_text sourceText) spans = JS.slice sourceText a b.
Proof.
  induction 1 as [|s spans (from & to & ->) _ IH]; simpl; intros a b Ha.
  - intros <-. split; [lia|]. rewrite slice_nonneg by lia.
    now rewrite Nat.sub_diag.
  - intros (Hfrom & Hle & Hrest). subst from.
    destruct (IH to b) as [Hb Htext]; [lia|exact Hrest|].
    split; [lia|]. rewrite Htext. apply slice_append; lia.
Qed.

End Coverage.

(** C2. On a file whose tree is well formed, whatever the replacer, the
    output of [processTree] is the text of a sequence of spans, each either
    a span of the source copied through or the replacement the replacer
    gave for a node of the tree, standing for the span of that node, that
    follow each other from offset 0 to the end of the source without gap or
    overlap; and when the replacer gives nothing for any node, the output
    is the source text itself. *)
Theorem processTree_covers_source
    (sourceFile : SourceFile.t) (replacer : Node -> option jsstring) :
  well_formed_file sourceFile = true ->
  (exists spans,
     processTree sourceFile replacer
     = flat_map (span_text (SourceFile.text sourceFile)) spans
     /\ tiles 0 spans (JS.length (SourceFile.text sourceFile))
     /\ Forall (span_of replacer (fun node => within node (SourceFile.root sourceFile)))
          spans)
  /\ ((forall node, replacer node = None) ->
      processTree sourceFile replacer = SourceFile.text sourceFile).
Proof.
  intros Hwf. unfold well_formed_file in Hwf.
  apply andb_prop in Hwf as [Hwf Hroot]. apply andb_prop in Hwf as [Hpos Hend].
  apply Z.leb_le in Hpos, Hend.
  destruct (visit_covers_all sourceFile replacer (SourceFile.root sourceFile)
              {| code := []; cursorPosition := 0 |} Hroot Hpos)
    as (spans & (Hcode & Htiles & Hspans) & Hcur).
  set (st := visit sourceFile replacer (SourceFile.root sourceFile)
               {| code := []; cursorPosition := 0 |}) in *.
  simpl in Hcode, Htiles.
  assert (Hall : processTree sourceFile replacer
                 = flat_map (span_text (SourceFile.text sourceFile))
                     (spans ++ [Through (cursorPosition st)
                                  (JS.length (SourceFile.text sourceFile))])).
  { unfold processTree. fold st. rewrite Hcode, flat_map_app. simpl.
    now rewrite app_nil_r. }
  assert (Htiles' : tiles 0 (spans ++ [Through (cursorPosition st)
                                         (JS.length (SourceFile.text sourceFile))])
                      (JS.length (SourceFile.text sourceFile))).
  { eapply tiles_app; [exact Htiles|]. simpl. repeat split; lia. }
  split.
  - eexists. split; [exact Hall|]. split; [exact Htiles'|].
    apply Forall_app. split; [exact Hspans|]. repeat constructor.
  - intros Hnone. rewrite Hall.
    destruct (through_spans_text sourceFile
                (spans ++ [Through (cursorPosition st)
                             (JS.length (SourceFile.text sourceFile))]))
      with (a := 0) (b := JS.length (SourceFile.text sourceFile))
      as [_ ->]; [|lia|exact Htiles'|apply slice_from_zero].
    apply Forall_app. split.
    + eapply Forall_impl; [|exact Hspans].
      intros [from to|node replacement]; simpl; [eauto|].
      rewrite Hnone. intros [Hrep _]. discriminate.
    + repeat constructor. eauto.
Qed.

Lemma processTree_covers_source_witness :
  well_formed_file declare_var = true
  /\ (exists spans,
        processTree declare_var remove_declare
        = flat_map (span_text (SourceFile.text declare_var)) spans
        /\ tiles 0 spans (JS.length (SourceFile.text declare_var))
        /\ Forall (span_of remove_declare (fun node => within node (SourceFile.root declare_var)))
             spans).
Proof.
  split; [reflexivity|].
  apply (processTree_covers_source declare_var remove_declare). reflexivity.
Defined.

Example processTree_declare_var :
  processTree declare_var remove_declare = "export var x: number;".
Proof. reflexivity. Qed.

(** The order of the children matters: when a child starts before the end
    of the one visited before it, the cursor moves back and a part of the
    source comes out twice. *)
Example processTree_out_of_order :
  well_formed_file out_of_order = false
  /\ processTree out_of_order (fun _ => None) = "abcdabcdef".
Proof. split; reflexivity. Qed.

(** ** Module identifiers *)

Lemma slice_middle (prefix middle suffix : jsstring) :
  suffix <> [] ->
  JS.slice (prefix ++ middle ++ suffix) (JS.length prefix)
    (- Z.of_nat (List.length suffix))
  = middle.
Proof.
  intros Hsuffix.
  assert (0 < List.length suffix)%nat by (destruct suffix; simpl; [congruence|lia]).
  unfold JS.slice, JS.relative_index, JS.length.
  rewrite !length_app, !Nat2Z.inj_add.
  destruct (Z.ltb_spec (Z.of_nat (List.length prefix)) 0); [lia|].
  destruct (Z.ltb_spec (- Z.of_nat (List.length suffix)) 0); [|lia].
  replace (Z.to_nat (Z.min (Z.of_nat (List.length prefix)) _))
    with (List.length prefix) by lia.
  rewrite skipn_app, skipn_all, Nat.sub_diag. simpl.
  replace (Z.to_nat _) with (List.length middle) by lia.
  rewrite firstn_app, firstn_all, Nat.sub_diag. simpl. apply app_nil_r.
Qed.

Lemma flat_map_separator (separator : ascii) (components : list jsstring) :
  Forall (fun component => ~ In separator component) components ->
  map (fun c => if Ascii.eqb c separator then "/"%char else c)
    (flat_map (cons separator) components)
  = flat_map (cons "/"%char) components.
Proof.
  induction 1 as [|component components Hfree _ IH]; simpl; [reflexivity|].
  rewrite Ascii.eqb_refl, map_app, IH. f_equal. f_equal.
  clear IH. induction component as [|c component IHc]; simpl; [reflexivity|].
  destruct (Ascii.eqb_spec c separator) as [->|_].
  - exfalso. apply Hfree. now left.
  - f_equal. apply IHc. intros Hin. apply Hfree. now right.
Qed.

Lemma filenameToMid_path {pathUtil : PathUtil} (components : list jsstring) :
  Forall (fun component => ~ In sep component) components ->
  filenameToMid (flat_map (cons sep) components)
  = flat_map (cons "/"%char) components.
Proof.
  intros Hfree. unfold filenameToMid.
  destruct (Ascii.eqb_spec sep "/") as [->|_]; [reflexivity|].
  now apply flat_map_separator.
Qed.

Lemma separator_free_Forall (separator : ascii) (components : list jsstring) :
  separator_free separator components = true ->
  Forall (fun component => ~ In separator component) components.
Proof.
  unfold separator_free. rewrite forallb_forall, Forall_forall.
  intros Hfree component Hin Hsep. specialize (Hfree component Hin).
  apply negb_true_iff in Hfree.
  assert (Hex : existsb (Ascii.eqb separator) component = true)
    by (apply existsb_exists; exists separator; split;
        [exact Hsep|apply Ascii.eqb_refl]).
  congruence.
Qed.

(** C5. On a host whose separator is the slash or the backslash, for the
    declaration file at the path [components] below the base directory, the
    module identifier is the namespace name followed by the components,
    each after a forward slash, whatever the separator of the host. *)
Theorem sourceModuleId_forward_slashes {pathUtil : PathUtil}
    (options : Options.t) (components : list jsstring) :
  host_separator sep = true ->
  separator_free sep components = true ->
  sourceModuleId options (path_under sep (baseDir options) components ++ ".d.ts")
  = Options.name options ++ flat_map (cons "/"%char) components.
Proof.
  intros _ Hfree. apply separator_free_Forall in Hfree.
  unfold sourceModuleId, path_under.
  rewrite <- app_assoc.
  change (-5) with (- Z.of_nat (List.length (list_ascii_of_string ".d.ts"))).
  rewrite slice_middle by discriminate.
  now rewrite filenameToMid_path.
Qed.

Lemma sourceModuleId_forward_slashes_witness :
  host_separator (@sep backslash_host) = true
  /\ separator_free (@sep backslash_host) (JS.strings ["foo"; "bar"]) = true
  /\ @sourceModuleId backslash_host (mylib_options "C:\base") "C:\base\foo\bar.d.ts"
     = "mylib/foo/bar".
Proof.
  split; [reflexivity|]. split; [reflexivity|].
  apply (@sourceModuleId_forward_slashes backslash_host (mylib_options "C:\base")
           (JS.strings ["foo"; "bar"])); reflexivity.
Defined.

Example sourceModuleId_posix :
  @sourceModuleId (posix "/home/u") (mylib_options "/base") "/base/foo/bar.d.ts"
  = "mylib/foo/bar".
Proof. reflexivity. Qed.

(** ** The replacer of [writeDeclaration] *)

Lemma SyntaxKind_eqb_eq (a b : SyntaxKind) : SyntaxKind_eqb a b = true <-> a = b.
Proof.
  split.
  - destruct a, b; simpl; try discriminate; try reflexivity.
    intros H. apply Nat.eqb_eq in H. now subst.
  - intros <-. destruct a; simpl; try reflexivity. apply Nat.eqb_refl.
Qed.

Lemma visit_replaced (sourceFile : SourceFile.t) (replacer : Node -> option jsstring)
    (node : Node) (replacement : jsstring) (st : Cursor) :
  replacer node = Some replacement ->
  visit sourceFile replacer node st
  = {| code := code st
               ++ JS.slice (SourceFile.text sourceFile) (cursorPosition st) (pos node)
               ++ replacement;
       cursorPosition := end_ node |}.
Proof.
  intros Hrep. rewrite visit_unfold, Hrep.
  unfold skip, append_code, readThrough. simpl. now rewrite app_assoc.
Qed.

(** C10. When the replacer gives a replacement for a node, [visit] copies
    the source up to the node's [pos], the start of the trivia in front of
    its first token, appends the replacement and moves the cursor to the
    node's [end]: the text from [pos] to [end] is what is replaced. So the
    [declare] keyword leaves nothing behind, the trivia in front of it
    neither, and the two other replacements of [writeDeclaration] start
    with a blank. *)
Theorem replacement_spans_leading_trivia {pathUtil : PathUtil}
    (sourceFile : SourceFile.t) (sourceModuleId : jsstring)
    (node : Node) (st : Cursor) :
  (forall replacer replacement,
      replacer node = Some replacement ->
      visit sourceFile replacer node st
      = {| code := code st
                   ++ JS.slice (SourceFile.text sourceFile) (cursorPosition st) (pos node)
                   ++ replacement;
           cursorPosition := end_ node |})
  /\ (kind node = DeclareKeyword ->
      visit sourceFile (declarationReplacer sourceModuleId) node st
      = {| code := code st
                   ++ JS.slice (SourceFile.text sourceFile) (cursorPosition st) (pos node);
           cursorPosition := end_ node |})
  /\ (forall replacement,
         declarationReplacer sourceModuleId node = Some replacement ->
         kind node <> DeclareKeyword ->
         exists rest, replacement = " "%char :: rest).
Proof.
  split; [|split].
  - intros replacer replacement. apply visit_replaced.
  - intros Hkind.
    rewrite (visit_replaced sourceFile _ node []); [now rewrite app_nil_r|].
    unfold declarationReplacer. rewrite Hkind. reflexivity.
  - intros replacement Hrep Hkind. unfold declarationReplacer in Hrep.
    destruct (SyntaxKind_eqb (kind node) ExternalModuleReference).
    + destruct (expression node) as [e|]; [|discriminate].
      destruct (JS.first_char_is "." (text e)); [|discriminate].
      injection Hrep as <-. eexists. reflexivity.
    + destruct (SyntaxKind_eqb (kind node) DeclareKeyword) eqn:Hdeclare.
      * apply SyntaxKind_eqb_eq in Hdeclare. contradiction.
      * destruct (SyntaxKind_eqb (kind node) StringLiteral
                  && (parent_is ExportDeclaration node || parent_is ImportDeclaration node));
          [|discriminate].
        destruct (JS.first_char_is "." (text node)); [|discriminate].
        injection Hrep as <-. eexists. reflexivity.
Qed.

Lemma replacement_spans_leading_trivia_witness :
  visit declare_var
    (@declarationReplacer (posix "/home/u") "mylib/v")
    (token DeclareKeyword (OtherKind 1) 6 14)
    {| code := "export"; cursorPosition := 6 |}
  = {| code := "export"; cursorPosition := 14 |}.
Proof.
  apply (proj1 (proj2 (@replacement_spans_leading_trivia (posix "/home/u")
                         declare_var "mylib/v"
                         (token DeclareKeyword (OtherKind 1) 6 14)
                         {| code := "export"; cursorPosition := 6 |}))).
  reflexivity.
Defined.

(** In [export declare var x: number;] the span of the [declare] keyword
    is [ declare], with the blank in front of it; the rewritten text has
    one blank between [export] and [var]. *)
Example processTree_declare_removed :
  JS.slice (SourceFile.text declare_var) 6 14 = " declare"
  /\ processTree declare_var (@declarationReplacer (posix "/home/u") "mylib/v")
     = "export var x: number;".
Proof. split; reflexivity. Qed.

(** C6. For an external module reference whose path starts with a dot, the
    replacer gives [ require('<id>')], where the identifier is the join of
    the directory of the module identifier of the file with the path; for a
    path that does not start with a dot it gives nothing, neither for the
    reference nor for the literal inside it. With the [path] module of a
    POSIX host, [./x] in the file of the module [mylib/a/b] becomes
    [mylib/a/x]. *)
Theorem relative_reference_rewritten {pathUtil : PathUtil}
    (sourceModuleId : jsstring) (node literal : Node) :
  kind node = ExternalModuleReference ->
  expression node = Some literal ->
  (JS.first_char_is "." (text literal) = true ->
   declarationReplacer sourceModuleId node
   = Some (" require('" ++ join [dirname sourceModuleId; text literal] ++ "')"))
  /\ (JS.first_char_is "." (text literal) = false ->
      declarationReplacer sourceModuleId node = None
      /\ (kind literal = StringLiteral ->
          parent literal = Some ExternalModuleReference ->
          declarationReplacer sourceModuleId literal = None))
  /\ Posix.join [Posix.dirname "mylib/a/b"; "./x" : jsstring] = "mylib/a/x"
  /\ (forall cwd,
         processTree import_x (@declarationReplacer (posix cwd) "mylib/a/b")
         = "import x = require('mylib/a/x');").
Proof.
  intros Hkind Hexpr. unfold declarationReplacer at 1 2.
  rewrite Hkind, Hexpr. simpl.
  split; [intros ->; reflexivity|].
  split; [|split; [reflexivity|intros cwd; reflexivity]].
  intros ->. split; [reflexivity|].
  intros Hliteral Hparent. unfold declarationReplacer, parent_is.
  rewrite Hliteral, Hparent. reflexivity.
Qed.

Lemma relative_reference_rewritten_witness :
  @declarationReplacer (posix "/home/u") "mylib/a/b"
    (mkNode ExternalModuleReference (Some (OtherKind 8)) 10 25 []
       [ mkNode StringLiteral (Some ExternalModuleReference) 19 24 "./x" [] ])
  = Some (list_ascii_of_string " require('mylib/a/x')").
Proof.
  apply (proj1 (@relative_reference_rewritten (posix "/home/u") "mylib/a/b"
                  (mkNode ExternalModuleReference (Some (OtherKind 8)) 10 25 []
                     [ mkNode StringLiteral (Some ExternalModuleReference) 19 24 "./x" [] ])
                  (mkNode StringLiteral (Some ExternalModuleReference) 19 24 "./x" [])
                  eq_refl eq_refl)).
  reflexivity.
Defined.

Example indentLines_sample :
  Indent.indentLines JS.LF JS.TAB
    ("a" ++ JS.LF ++ "b" ++ JS.LF ++ JS.LF ++ "  c" ++ JS.LF)
  = "a" ++ JS.LF ++ JS.TAB ++ "b" ++ JS.LF ++ JS.LF ++ JS.TAB ++ "  c" ++ JS.LF
  /\ Indent.indentLines CRLF "  " (CRLF ++ "x" ++ CRLF ++ CRLF)
     = CRLF ++ "  x" ++ CRLF ++ CRLF
  /\ Lines.split CRLF (CRLF ++ "x" ++ CRLF ++ CRLF) = ([], JS.strings ["x"; EmptyString; EmptyString])
  /\ Lines.border_free CRLF = true /\ Lines.border_free JS.LF = true
  /\ Lines.border_free "aba" = false
  /\ Indent.regexp_literal CRLF = true.
Proof. repeat split; vm_compute; reflexivity. Qed.

(** ** Indentation *)

Lemma starts_with_app (e rest : jsstring) : JS.starts_with e (e ++ rest) = true.
Proof. induction e as [|a e IH]; simpl; [reflexivity|]. now rewrite Ascii.eqb_refl. Qed.

Lemma starts_with_split (e s : jsstring) :
  JS.starts_with e s = true -> s = e ++ skipn (List.length e) s.
Proof.
  revert s. induction e as [|a e IH]; intros [|b s]; simpl; try discriminate; auto.
  intros H. apply andb_prop in H as [Hab He].
  apply Ascii.eqb_eq in Hab. subst b. f_equal. now apply IH.
Qed.

Lemma starts_with_length (e s : jsstring) :
  JS.starts_with e s = true -> (List.length e <= List.length s)%nat.
Proof.
  revert s. induction e as [|a e IH]; intros [|b s]; simpl; try discriminate; try lia.
  intros H. apply andb_prop in H as [_ He]. apply IH in He. lia.
Qed.

(** Only the first characters of the subject matter. *)
Lemma starts_with_app_long (e u v : jsstring) :
  (List.length e <= List.length u)%nat ->
  JS.starts_with e (u ++ v) = JS.starts_with e u.
Proof.
  revert u. induction e as [|a e IH]; intros [|b u]; simpl; try reflexivity; try lia.
  intros Hlen. rewrite IH by lia. reflexivity.
Qed.

Lemma starts_with_app_short (e u v : jsstring) :
  (List.length u < List.length e)%nat ->
  JS.starts_with e (u ++ v) = true ->
  JS.starts_with (skipn (List.length u) e) v = true.
Proof.
  revert e. induction u as [|b u IH]; intros [|a e]; simpl; try lia; auto.
  intros Hlen H. apply andb_prop in H as [_ H]. apply IH; [lia|exact H].
Qed.

Lemma starts_with_shorter (w e v : jsstring) :
  (List.length w <= List.length e)%nat ->
  JS.starts_with w (e ++ v) = true -> JS.starts_with w e = true.
Proof. intros Hlen H. now rewrite starts_with_app_long in H. Qed.

Lemma no_border_suffix (eol suffix : jsstring) (j : nat) :
  Lines.no_border eol suffix = true ->
  (j < List.length suffix)%nat ->
  JS.starts_with (skipn j suffix) eol = false.
Proof.
  revert j. induction suffix as [|a suffix IH]; simpl; intros j H Hj; [lia|].
  apply andb_prop in H as [Hhead Hrest]. apply negb_true_iff in Hhead.
  destruct j as [|j]; [exact Hhead|]. apply IH; [exact Hrest|lia].
Qed.

Lemma border_free_suffix (eol : jsstring) (j : nat) :
  Lines.border_free eol = true ->
  (0 < j < List.length eol)%nat ->
  JS.starts_with (skipn j eol) eol = false.
Proof.
  destruct eol as [|a suffix]; [discriminate|]. simpl. intros H Hj.
  destruct j as [|j]; [lia|]. apply (no_border_suffix _ _ j H). lia.
Qed.

(** A line break cannot begin inside a piece that is shorter than it and is
    followed by a line break. *)
Lemma border_free_overlap (eol u : jsstring) :
  Lines.border_free eol = true ->
  u <> [] ->
  (List.length u < List.length eol)%nat ->
  JS.starts_with eol (u ++ eol) = false.
Proof.
  intros Hfree Hu Hlen.
  destruct (JS.starts_with eol (u ++ eol)) eqn:H; [|reflexivity].
  apply starts_with_app_short in H; [|exact Hlen].
  rewrite border_free_suffix in H; [discriminate|exact Hfree|].
  destruct u; [congruence|simpl in *; lia].
Qed.

Section Indentation.

Variables eol indent : jsstring.
Hypothesis eol_border_free : Lines.border_free eol = true.
Hypothesis indent_plain : Lines.plain indent = true.

Local Abbreviation replace_from fuel := (Indent.replace_from fuel eol ("$&" ++ indent)).

Local Abbreviation at_break := (Lines.at_break eol).

Lemma eol_not_nil : eol <> [].
Proof. intros Heq. rewrite Heq in eol_border_free. discriminate. Qed.

Lemma at_break_flat_map (lines : list jsstring) :
  at_break (flat_map (fun line => eol ++ line) lines).
Proof.
  destruct lines as [|line lines]; [now left|right]. simpl.
  rewrite <- app_assoc. eauto.
Qed.

Lemma getSubstitution_plain (matched before following template : jsstring) :
  existsb (Ascii.eqb "$") template = false ->
  Indent.getSubstitution matched before following template = template.
Proof.
  induction template as [|c template IH]; [reflexivity|].
  cbn [existsb Indent.getSubstitution].
  intros H. apply orb_false_elim in H as [Hc Hrest].
  rewrite Ascii.eqb_sym in Hc. rewrite Hc. now rewrite IH.
Qed.

Lemma getSubstitution_indent (matched before following : jsstring) :
  Indent.getSubstitution matched before following ("$&" ++ indent)
  = matched ++ indent.
Proof.
  change (list_ascii_of_string "$&" ++ indent) with ("$"%char :: "&"%char :: indent).
  cbn [Indent.getSubstitution].
  change (Ascii.eqb "$" "$") with true. change (Ascii.eqb "&" "$") with false.
  change (Ascii.eqb "&" "&") with true. cbv iota.
  rewrite getSubstitution_plain; [reflexivity|].
  unfold Lines.plain in indent_plain. now apply negb_true_iff in indent_plain.
Qed.

Lemma matches_shrinks (c : ascii) (rest : jsstring) :
  Indent.nonEmptyLineStart_matches eol (c :: rest) = true ->
  (List.length (skipn (List.length eol) (c :: rest)) <= List.length rest)%nat.
Proof.
  intros _. pose proof eol_not_nil. destruct eol as [|a e]; [congruence|].
  simpl. rewrite length_skipn. lia.
Qed.

(** More fuel than the length of the text changes nothing. *)
Lemma replace_from_fuel (fuel fuel' : nat) (before rest : jsstring) :
  (List.length rest <= fuel)%nat -> (List.length rest <= fuel')%nat ->
  replace_from fuel before rest = replace_from fuel' before rest.
Proof.
  revert fuel' before rest.
  induction fuel as [|fuel IH]; intros fuel' before rest Hf Hf'.
  - destruct rest; [|simpl in Hf; lia]. destruct fuel'; reflexivity.
  - destruct rest as [|c rest]; [destruct fuel'; reflexivity|].
    destruct fuel' as [|fuel']; [simpl in Hf'; lia|]. simpl in Hf, Hf'.
    cbn [Indent.replace_from].
    destruct (Indent.nonEmptyLineStart_matches eol (c :: rest)) eqn:Hm.
    + apply matches_shrinks in Hm. f_equal. apply IH; lia.
    + f_equal. apply IH; lia.
Qed.

Lemma replace_from_match (before rest : jsstring) :
  Indent.nonEmptyLineStart_matches eol rest = true ->
  replace_from (List.length rest) before rest
  = eol ++ indent
    ++ replace_from (List.length (skipn (List.length eol) rest)) (before ++ eol)
         (skipn (List.length eol) rest).
Proof.
  intros Hm. destruct rest as [|c rest].
  - unfold Indent.nonEmptyLineStart_matches in Hm.
    pose proof eol_not_nil. destruct eol; [congruence|discriminate].
  - cbn [List.length Indent.replace_from]. rewrite Hm.
    rewrite getSubstitution_indent, <- app_assoc. do 2 f_equal.
    apply replace_from_fuel; [|lia]. now apply matches_shrinks.
Qed.

Lemma replace_from_no_match (before : jsstring) (c : ascii) (rest : jsstring) :
  Indent.nonEmptyLineStart_matches eol (c :: rest) = false ->
  replace_from (List.length (c :: rest)) before (c :: rest)
  = c :: replace_from (List.length rest) (before ++ [c]) rest.
Proof. intros Hm. cbn [List.length Indent.replace_from]. now rewrite Hm. Qed.

(** Where a line break starts in a line followed by the rest of a text, it
    starts too when the line is followed by a line break only. *)
Lemma starts_with_at_break (u rest : jsstring) :
  at_break rest ->
  JS.starts_with eol (u ++ rest) = true ->
  JS.starts_with eol (u ++ eol) = true.
Proof.
  intros [->|(rest' & ->)] H.
  - rewrite app_nil_r in H.
    rewrite starts_with_app_long; [exact H|]. now apply starts_with_length.
  - rewrite app_assoc in H. rewrite starts_with_app_long in H; [exact H|].
    rewrite length_app. lia.
Qed.

(** A line is copied through. *)
Lemma replace_from_line (line rest before : jsstring) :
  Lines.no_line_break eol line = true ->
  at_break rest ->
  replace_from (List.length (line ++ rest)) before (line ++ rest)
  = line ++ replace_from (List.length rest) (before ++ line) rest.
Proof.
  revert before. induction line as [|c line IH]; intros before Hline Hrest.
  - now rewrite app_nil_r.
  - cbn [Lines.no_line_break] in Hline. apply andb_prop in Hline as [Hhere Hline].
    apply negb_true_iff in Hhere.
    rewrite <- app_comm_cons, replace_from_no_match, IH; auto.
    + now rewrite <- app_assoc.
    + unfold Indent.nonEmptyLineStart_matches.
      destruct (JS.starts_with eol (c :: line ++ rest)) eqn:H; [|reflexivity].
      apply (starts_with_at_break (c :: line)) in H; [|exact Hrest].
      simpl in H, Hhere. congruence.
Qed.

Lemma border_free_tail (c : ascii) (e : jsstring) :
  eol = c :: e -> Lines.no_line_break eol e = true.
Proof.
  intros Heq.
  assert (Hsuffix : forall u v, e = v ++ u -> Lines.no_line_break eol u = true).
  { induction u as [|a u IHu]; intros v Hv; [reflexivity|].
    cbn [Lines.no_line_break]. apply andb_true_intro. split.
    - apply negb_true_iff. apply border_free_overlap; auto; [discriminate|].
      rewrite Heq, Hv. simpl. rewrite length_app. simpl. lia.
    - apply (IHu (v ++ [a])). now rewrite <- app_assoc. }
  now apply (Hsuffix e []).
Qed.

(** A line break in front of an empty line stays as it is. *)
Lemma replace_from_blank (rest before : jsstring) :
  at_break rest ->
  replace_from (List.length (eol ++ rest)) before (eol ++ rest)
  = eol ++ replace_from (List.length rest) (before ++ eol) rest.
Proof.
  intros Hrest.
  assert (Hm : Indent.nonEmptyLineStart_matches eol (eol ++ rest) = false).
  { unfold Indent.nonEmptyLineStart_matches.
    rewrite starts_with_app, skipn_app, skipn_all, Nat.sub_diag. simpl.
    destruct Hrest as [->|(rest' & ->)].
    - simpl. now rewrite orb_true_r.
    - now rewrite starts_with_app. }
  assert (Hhead : exists c e, eol = c :: e).
  { pose proof eol_not_nil as Hnil. destruct eol as [|c e]; [congruence|eauto]. }
  destruct Hhead as (c & e & Heol).
  assert (Htext : eol ++ rest = c :: (e ++ rest)) by (rewrite Heol; reflexivity).
  rewrite Htext in Hm |- *.
  rewrite replace_from_no_match by exact Hm.
  rewrite replace_from_line; [|now apply (border_free_tail c)|exact Hrest].
  rewrite Heol, <- app_assoc. reflexivity.
Qed.

(** A line break in front of a line that is not empty gets the indent. *)
Lemma replace_from_indent (line rest before : jsstring) :
  line <> [] ->
  Lines.no_line_break eol line = true ->
  at_break rest ->
  replace_from (List.length (eol ++ line ++ rest)) before (eol ++ line ++ rest)
  = eol ++ indent ++ line
    ++ replace_from (List.length rest) (before ++ eol ++ line) rest.
Proof.
  intros Hne Hline Hrest.
  assert (Hskip : skipn (List.length eol) (eol ++ line ++ rest) = line ++ rest)
    by (rewrite skipn_app, skipn_all, Nat.sub_diag; reflexivity).
  rewrite replace_from_match.
  - rewrite Hskip, replace_from_line by assumption.
    now rewrite <- !app_assoc.
  - unfold Indent.nonEmptyLineStart_matches.
    rewrite starts_with_app, Hskip. simpl.
    destruct line as [|c line]; [congruence|]. simpl JS.is_nil.
    cbn [Lines.no_line_break] in Hline. apply andb_prop in Hline as [Hhere _].
    apply negb_true_iff in Hhere.
    destruct (JS.starts_with eol ((c :: line) ++ rest)) eqn:H; [|reflexivity].
    apply starts_with_at_break in H; [congruence|exact Hrest].
Qed.

Lemma replace_from_lines (lines : list jsstring) (before : jsstring) :
  forallb (Lines.no_line_break eol) lines = true ->
  replace_from (List.length (flat_map (fun line => eol ++ line) lines)) before
    (flat_map (fun line => eol ++ line) lines)
  = flat_map (fun line => eol ++ match line with
                                 | [] => []
                                 | _ => indent ++ line
                                 end) lines.
Proof.
  revert before. induction lines as [|line lines IH]; intros before Hlines.
  - reflexivity.
  - cbn [forallb] in Hlines. apply andb_prop in Hlines as [Hline Hlines].
    cbn [flat_map]. pose proof (at_break_flat_map lines) as Hrest.
    destruct line as [|c line].
    + rewrite !app_nil_r. rewrite replace_from_blank by exact Hrest.
      now rewrite IH.
    + rewrite <- !app_assoc.
      rewrite replace_from_indent; auto; [|discriminate].
      rewrite IH by exact Hlines. now rewrite <- ?app_assoc.
Qed.

Lemma indentLines_unlines (lines : jsstring * list jsstring) :
  Lines.no_line_break eol (fst lines) = true ->
  forallb (Lines.no_line_break eol) (snd lines) = true ->
  Indent.indentLines eol indent (Lines.unlines eol lines)
  = Lines.indented eol indent lines.
Proof.
  intros Hfirst Hothers.
  unfold Indent.indentLines, Indent.replace, Lines.unlines, Lines.indented.
  rewrite replace_from_line; auto using at_break_flat_map.
  now rewrite replace_from_lines.
Qed.

End Indentation.

Lemma split_from_unlines (eol : jsstring) (fuel : nat) (rest : jsstring) :
  (List.length rest <= fuel)%nat ->
  Lines.unlines eol (Lines.split_from fuel eol rest) = rest.
Proof.
  revert rest. induction fuel as [|fuel IH]; intros rest Hfuel.
  - destruct rest; [reflexivity|simpl in Hfuel; lia].
  - destruct rest as [|c rest]; [reflexivity|]. simpl in Hfuel.
    cbn [Lines.split_from].
    destruct (negb (JS.is_nil eol) && JS.starts_with eol (c :: rest)) eqn:Hm.
    + apply andb_prop in Hm as [Hnil Hm].
      specialize (IH (skipn (List.length eol) (c :: rest))).
      destruct (Lines.split_from fuel eol (skipn (List.length eol) (c :: rest)))
        as [line more].
      unfold Lines.unlines in *. simpl in IH |- *.
      rewrite <- app_assoc, IH.
      * symmetry. now apply starts_with_split.
      * destruct eol; [discriminate|]. simpl. rewrite length_skipn. lia.
    + specialize (IH rest).
      destruct (Lines.split_from fuel eol rest) as [line more].
      unfold Lines.unlines in *. simpl in IH |- *. rewrite IH; [reflexivity|lia].
Qed.

Lemma split_from_lines (eol : jsstring) (fuel : nat) (rest : jsstring) :
  Lines.border_free eol = true ->
  (List.length rest <= fuel)%nat ->
  Lines.no_line_break eol (fst (Lines.split_from fuel eol rest)) = true
  /\ forallb (Lines.no_line_break eol) (snd (Lines.split_from fuel eol rest)) = true.
Proof.
  intros Hfree. revert rest. induction fuel as [|fuel IH]; intros rest Hfuel.
  - destruct rest; [split; reflexivity|simpl in Hfuel; lia].
  - destruct rest as [|c rest]; [split; reflexivity|]. simpl in Hfuel.
    cbn [Lines.split_from].
    destruct (negb (JS.is_nil eol) && JS.starts_with eol (c :: rest)) eqn:Hm.
    + specialize (IH (skipn (List.length eol) (c :: rest))).
      destruct (Lines.split_from fuel eol (skipn (List.length eol) (c :: rest)))
        as [line more].
      simpl in IH |- *. destruct IH as [Hline Hmore].
      * apply andb_prop in Hm as [Hnil _].
        destruct eol; [discriminate|]. simpl. rewrite length_skipn. lia.
      * split; [reflexivity|]. now rewrite Hline, Hmore.
    + pose proof (split_from_unlines eol fuel rest) as Htext.
      specialize (IH rest).
      destruct (Lines.split_from fuel eol rest) as [line more].
      unfold Lines.unlines in Htext. simpl in IH, Htext |- *.
      destruct IH as [Hline Hmore]; [lia|]. specialize (Htext ltac:(lia)).
      split; [|exact Hmore]. rewrite Hline, andb_true_r. apply negb_true_iff.
      assert (Hhere : JS.starts_with eol (c :: rest) = false).
      { destruct eol; [discriminate|]. exact Hm. }
      destruct more as [|next more].
      * simpl in Htext. rewrite app_nil_r in Htext. subst line.
        destruct (Nat.lt_ge_cases (List.length (c :: rest)) (List.length eol))
          as [Hshort|Hlong].
        -- apply (border_free_overlap eol (c :: rest)); auto. discriminate.
        -- pose proof (starts_with_app_long eol (c :: rest) eol Hlong) as Heq.
           simpl in Heq |- *. rewrite Heq. exact Hhere.
      * pose proof (starts_with_app_long eol ((c :: line) ++ eol)
                      (next ++ flat_map (fun l => eol ++ l) more)) as Heq.
        rewrite length_app in Heq. specialize (Heq ltac:(lia)).
        rewrite <- Htext in Hhere. simpl in Heq, Hhere |- *.
        rewrite <- !app_assoc in Heq. rewrite <- !app_assoc in Hhere.
        congruence.
Qed.

(** C7. For a line break that no regular-expression character occurs in and
    that cannot overlap itself, and an indent without a dollar sign, the
    indentation step maps every text to the text of its lines in which the
    indent stands after each line break that is followed by a line which is
    not empty: after none that is followed by another line break or by the
    end of the text, and not in front of the first line. *)
Theorem indentLines_indents_lines (eol indent content : jsstring) :
  Indent.regexp_literal eol = true ->
  Lines.border_free eol = true ->
  Lines.plain indent = true ->
  Indent.indentLines eol indent content
  = Lines.indented eol indent (Lines.split eol content).
Proof.
  intros _ Hfree Hplain.
  rewrite <- (split_from_unlines eol (List.length content) content) at 1 by lia.
  destruct (split_from_lines eol (List.length content) content Hfree) as [Hfirst Hmore];
    [lia|].
  now apply indentLines_unlines.
Qed.

Lemma indentLines_indents_lines_witness :
  Indent.regexp_literal CRLF = true
  /\ Lines.border_free CRLF = true
  /\ Lines.plain JS.TAB = true
  /\ Indent.indentLines CRLF JS.TAB ("a" ++ CRLF ++ "b" ++ CRLF ++ CRLF ++ "c" ++ CRLF)
     = "a" ++ CRLF ++ JS.TAB ++ "b" ++ CRLF ++ CRLF ++ JS.TAB ++ "c" ++ CRLF.
Proof.
  repeat (split; [reflexivity|]).
  apply (indentLines_indents_lines CRLF JS.TAB
           ("a" ++ CRLF ++ "b" ++ CRLF ++ CRLF ++ "c" ++ CRLF)); reflexivity.
Defined.

(** ** Sample runs *)

Example generate_failing_sample :
  let run := @generate (posix "/base") (sample_compiler [bad_module; ambient_file] emit_failing parse_module)
               JS.LF (pkg_options ["bad.ts"] (Some "pkg/a")) in
  written run = alias_block JS.LF JS.TAB "pkg" "pkg/a"
  /\ option_map Error.message (rejected run)
     = Some ("Declaration generation failed" ++ JS.LF ++
             "/base/bad.ts(1,12): error TS2322: Type 'string' is not assignable to type 'number'.")
  /\ messages run = JS.strings ["Processing /base/bad.ts"; "Aliased main module pkg to pkg/a"].
Proof. vm_compute. repeat split. Qed.

Example generate_declaration_sample :
  let run := @generate (posix "/base") (sample_compiler [declare_var; ambient_file] emit_nothing parse_module)
               JS.LF (pkg_options ["v.d.ts"; "globals.d.ts"] (Some "./v")) in
  output run = "declare module 'pkg/v' {" ++ JS.LF ++ JS.TAB ++ "export var x: number;" ++ JS.LF ++ "}" ++ JS.LF
               ++ "declare var g: string;" ++ JS.LF
               ++ "declare module 'pkg' {" ++ JS.LF ++ JS.TAB ++ "import main = require('./v');" ++ JS.LF
               ++ JS.TAB ++ "export = main;" ++ JS.LF ++ "}" ++ JS.LF
  /\ rejected run = None /\ ended run = true.
Proof. vm_compute. repeat split. Qed.

(** ** Diagnostics *)

Lemma fold_left_append {A} (f : A -> jsstring) (items : list A) (start : jsstring) :
  fold_left (fun message item => message ++ f item) items start
  = start ++ flat_map f items.
Proof.
  revert start. induction items as [|item items IH]; intros start; simpl.
  - now rewrite app_nil_r.
  - now rewrite IH, <- app_assoc.
Qed.

(** C8, as the code has it. The message of the error is the header
    [Declaration generation failed] followed, for each diagnostic in turn,
    by a line feed and [file(line,column): error TS<code>: <message>], where
    line and column are the compiler's, which count from zero, plus one;
    the code follows [TS], not [T]. *)
Theorem getError_message {ts : TypeScript} (diagnostics : list Diagnostic.t) :
  Error.message (getError diagnostics)
  = "Declaration generation failed" ++
    flat_map
      (fun diagnostic =>
         let position :=
           getLineAndCharacterOfPosition (Diagnostic.file diagnostic)
             (Diagnostic.start diagnostic) in
         JS.LF ++ SourceFile.fileName (Diagnostic.file diagnostic)
         ++ "(" ++ JS.of_N (fst position + 1) ++ "," ++ JS.of_N (snd position + 1)
         ++ "): error TS" ++ JS.of_N (Diagnostic.code diagnostic)
         ++ ": " ++ Diagnostic.messageText diagnostic)
      diagnostics
  /\ Error.name (getError diagnostics) = "EmitterError".
Proof.
  split; [|reflexivity]. unfold getError. cbn [Error.message].
  rewrite fold_left_append. f_equal. apply flat_map_ext.
  intros diagnostic. unfold diagnosticLine.
  destruct (getLineAndCharacterOfPosition _ _) as [line character].
  cbn [fst snd]. now rewrite <- ?app_assoc.
Qed.

(** C8 as stated fails: for the diagnostic of the sample module the line of
    the message has [TS2322], not [T2322]. *)
Lemma getError_message_not_T :
  Error.message
    (@getError (sample_compiler [bad_module] emit_failing parse_module) [bad_diagnostic])
  <> "Declaration generation failed" ++ JS.LF ++
     spec_diagnosticLine "/base/bad.ts" 1 12 2322
       "Type 'string' is not assignable to type 'number'.".
Proof. vm_compute. discriminate. Qed.

(** ** Input files *)

Lemma posix_resolve_from_absolute (args_rev : list jsstring) (cwd acc : jsstring) :
  Posix.isAbsolute cwd = true ->
  snd (Posix.resolve_from (args_rev ++ [cwd]) acc) = true.
Proof.
  intros Hcwd. revert acc.
  induction args_rev as [|path args_rev IH]; intros acc; simpl.
  - destruct cwd as [|c cwd]; [discriminate|]. now rewrite Hcwd.
  - destruct path as [|c path]; [apply IH|].
    destruct (Posix.isAbsolute (c :: path)); [reflexivity|apply IH].
Qed.

Lemma posix_resolve_absolute (cwd : jsstring) (args : list jsstring) :
  Posix.isAbsolute cwd = true ->
  Posix.isAbsolute (Posix.resolve cwd args) = true.
Proof.
  intros Hcwd. unfold Posix.resolve.
  pose proof (posix_resolve_from_absolute (rev args) cwd [] Hcwd) as Habs.
  change (rev (cwd :: args)) with (rev args ++ [cwd]).
  destruct (Posix.resolve_from (rev args ++ [cwd]) []) as [resolvedPath absolute].
  simpl in Habs. subst absolute. reflexivity.
Qed.

(** An absolute last argument makes the ones before it irrelevant. *)
Lemma posix_resolve_absolute_path (cwd directory filename : jsstring) :
  Posix.isAbsolute filename = true ->
  Posix.resolve cwd [directory; filename] = Posix.resolve cwd [filename].
Proof.
  intros Habs. unfold Posix.resolve.
  change (rev (cwd :: [directory; filename])) with [filename; directory; cwd].
  change (rev (cwd :: [filename])) with [filename; cwd].
  destruct filename as [|c filename]; [discriminate|].
  cbn [Posix.resolve_from]. now rewrite Habs.
Qed.

(** C9, as the code has it, on a POSIX host whose working directory is
    absolute. The base directory is absolute. An input path is resolved
    relative to the base directory, except a relative path whose resolution
    against the working directory starts with the base directory, which is
    resolved against the working directory. *)
Theorem getFilenames_resolution (cwd : jsstring) (options : Options.t) :
  Posix.isAbsolute cwd = true ->
  let base := @baseDir (posix cwd) options in
  Posix.isAbsolute base = true
  /\ @filenames (posix cwd) options
     = map (fun filename =>
              if negb (Posix.isAbsolute filename)
                 && JS.starts_with base (Posix.resolve cwd [filename])
              then Posix.resolve cwd [filename]
              else Posix.resolve cwd [base; filename])
         (Options.files options).
Proof.
  intros Hcwd base. split.
  - now apply posix_resolve_absolute.
  - unfold filenames, getFilenames. fold base. apply map_ext.
    intros filename. simpl.
    destruct (Posix.isAbsolute filename) eqn:Habs; simpl.
    + rewrite posix_resolve_absolute_path by exact Habs.
      now destruct (JS.starts_with base (Posix.resolve cwd [filename])).
    + reflexivity.
Qed.

Lemma getFilenames_resolution_witness :
  Posix.isAbsolute "/base/sub" = true
  /\ @filenames (posix "/base/sub") (pkg_options ["a.ts"; "/base/b.ts"; "../../lib/c.ts"] None)
     = JS.strings ["/base/sub/a.ts"; "/base/b.ts"; "/lib/c.ts"].
Proof.
  split; [reflexivity|].
  rewrite (proj2 (getFilenames_resolution "/base/sub"
                    (pkg_options ["a.ts"; "/base/b.ts"; "../../lib/c.ts"] None)
                    eq_refl)).
  reflexivity.
Defined.

(** C9 as stated fails: in the working directory [/base/sub], the input
    path [foo.ts] is not resolved relative to the base directory [/base]. *)
Lemma getFilenames_not_relative_to_base :
  @filenames (posix "/base/sub") (pkg_options ["foo.ts"] None)
  <> map (fun filename => @resolve (posix "/base/sub")
                            [@baseDir (posix "/base/sub") (pkg_options ["foo.ts"] None);
                             filename])
       (Options.files (pkg_options ["foo.ts"] None)).
Proof. vm_compute. discriminate. Qed.

(** ** The run over the files *)

(** C1, as the code has it. A file of the program whose name ends in
    [.d.ts], that lies below the base directory and is not excluded, goes
    to [writeDeclaration] as it is, and the iteration goes on. If the file
    has no external module indicator, its text is written unchanged, as one
    chunk. If it has one, the file is wrapped like an emitted declaration:
    the opening of the module block, the rewritten and indented text, the
    closing. *)
Theorem declaration_file_written {pathUtil : PathUtil} {ts : TypeScript}
    (os_EOL : jsstring) (options : Options.t) (sourceFile : SourceFile.t) (run : Run) :
  is_declaration_name (SourceFile.fileName sourceFile) = true ->
  JS.starts_with (baseDir options) (normalize (SourceFile.fileName sourceFile)) = true ->
  existsb (JS.eqb (SourceFile.fileName sourceFile)) (excludesMap options) = false ->
  let announced := sendMessage ("Processing " ++ SourceFile.fileName sourceFile) run in
  let id := sourceModuleId options (SourceFile.fileName sourceFile) in
  processSourceFile os_EOL options sourceFile run
  = (false,
     if SourceFile.externalModuleIndicator sourceFile then
       write (eol os_EOL options ++ "}" ++ eol os_EOL options)
         (write (Indent.indentLines (eol os_EOL options) (indent options)
                   (processTree sourceFile (declarationReplacer id)))
            (write ("declare module '" ++ id ++ "' {"
                    ++ eol os_EOL options ++ indent options)
               announced))
     else write (SourceFile.text sourceFile) announced).
Proof.
  intros Hname Hbase Hexcluded announced id.
  unfold processSourceFile. rewrite Hbase, Hexcluded, Hname. simpl.
  unfold writeDeclaration. fold announced. fold id.
  now destruct (SourceFile.externalModuleIndicator sourceFile).
Qed.

Lemma declaration_file_written_witness :
  written
    (snd (@processSourceFile (posix "/base")
            (sample_compiler [ambient_file] emit_nothing parse_module)
            JS.LF (pkg_options ["globals.d.ts"] None) ambient_file started))
  = [SourceFile.text ambient_file].
Proof.
  rewrite (@declaration_file_written (posix "/base")
             (sample_compiler [ambient_file] emit_nothing parse_module)
             JS.LF (pkg_options ["globals.d.ts"] None) ambient_file started
             eq_refl eq_refl eq_refl).
  reflexivity.
Defined.

(** C1 as stated fails: the declaration file [v.d.ts], which has an
    external module indicator, is not written as it is. *)
Lemma declaration_file_wrapped :
  is_declaration_name (SourceFile.fileName declare_var) = true
  /\ written
       (snd (@processSourceFile (posix "/base")
               (sample_compiler [declare_var] emit_nothing parse_module)
               JS.LF (pkg_options ["v.d.ts"] None) declare_var started))
     <> [SourceFile.text declare_var].
Proof. split; [reflexivity|]. vm_compute. discriminate. Qed.

(** The iteration stops at the file whose callback returns [true]. *)
Lemma some_sourceFiles_stops {pathUtil : PathUtil} {ts : TypeScript}
    (os_EOL : jsstring) (options : Options.t)
    (sourceFile : SourceFile.t) (more : list SourceFile.t) (run run' : Run) :
  processSourceFile os_EOL options sourceFile run = (true, run') ->
  some_sourceFiles os_EOL options (sourceFile :: more) run = run'.
Proof. intros H. simpl. now rewrite H. Qed.

(** The callback returns [true] only when it has rejected the promise, and
    it writes nothing after that. *)
Lemma processSourceFile_stop_rejects {pathUtil : PathUtil} {ts : TypeScript}
    (os_EOL : jsstring) (options : Options.t)
    (sourceFile : SourceFile.t) (run run' : Run) :
  processSourceFile os_EOL options sourceFile run = (true, run') ->
  rejected run' <> None.
Proof.
  unfold processSourceFile.
  repeat match goal with
         | |- context [if ?b then _ else _] => destruct b
         end; intros H; inversion H; subst; clear H.
  unfold reject. simpl. now destruct (rejected _).
Qed.

(** The alias block is written whatever happened before. *)
Lemma writeMain_written {pathUtil : PathUtil}
    (os_EOL : jsstring) (options : Options.t) (main : jsstring) (run : Run) :
  Options.main options = Some main ->
  main <> [] ->
  written (writeMain os_EOL options run)
  = written run
    ++ alias_block (eol os_EOL options) (indent options) (Options.name options) main
  /\ rejected (writeMain os_EOL options run) = rejected run.
Proof.
  intros Hmain Hne. unfold writeMain. rewrite Hmain.
  destruct main as [|c main]; [congruence|]. simpl.
  split; [|reflexivity]. now rewrite <- !app_assoc.
Qed.

(** C3 fails on the code. The first file of the program has a type error,
    and a main module is configured: the promise is rejected, the file
    after it is not processed, and yet the four chunks of the alias block
    are written after the rejection. *)
Theorem alias_written_after_failure :
  let ts := sample_compiler [bad_module; ambient_file] emit_failing parse_module in
  let options := pkg_options ["bad.ts"] (Some "pkg/a") in
  let files := @some_sourceFiles (posix "/base") ts JS.LF options
                 [bad_module; ambient_file] started in
  let run := @generate (posix "/base") ts JS.LF options in
  rejected files = Some (@getError ts [bad_diagnostic])
  /\ written files = []
  /\ rejected run = Some (@getError ts [bad_diagnostic])
  /\ written run = alias_block JS.LF JS.TAB "pkg" "pkg/a".
Proof. vm_compute. repeat split. Qed.

(** C4, as the code has it. When the main module is a string that is not
    empty, the chunks written after those of the files are the alias block
    of the namespace, and the module it requires is the configured string
    as it is. *)
Theorem main_alias_block {pathUtil : PathUtil} {ts : TypeScript}
    (os_EOL : jsstring) (options : Options.t) (main : jsstring) :
  Options.main options = Some main ->
  main <> [] ->
  written (generate os_EOL options)
  = written (some_sourceFiles os_EOL options (getSourceFiles (program options))
               (writeExterns os_EOL options started))
    ++ [ "declare module '" ++ Options.name options ++ "' {"
         ++ eol os_EOL options ++ indent options;
         "import main = require('" ++ main ++ "');"
         ++ eol os_EOL options ++ indent options;
         "export = main;" ++ eol os_EOL options;
         "}" ++ eol os_EOL options ].
Proof.
  intros Hmain Hne. unfold generate. cbn [written end_output].
  now destruct (writeMain_written os_EOL options main
                  (some_sourceFiles os_EOL options (getSourceFiles (program options))
                     (writeExterns os_EOL options started)) Hmain Hne) as [-> _].
Qed.

Lemma main_alias_block_witness :
  written (@generate (posix "/base")
             (sample_compiler [] emit_nothing parse_module)
             JS.LF (pkg_options [] (Some "pkg/a")))
  = alias_block JS.LF JS.TAB "pkg" "pkg/a".
Proof.
  rewrite (@main_alias_block (posix "/base")
             (sample_compiler [] emit_nothing parse_module)
             JS.LF (pkg_options [] (Some "pkg/a")) "pkg/a" eq_refl);
    [reflexivity|discriminate].
Defined.

(** C4 as stated fails: with the main module [./a] and the namespace
    [pkg], the block requires [./a]; [pkg/a] occurs nowhere in the output. *)
Lemma main_not_qualified :
  let run := @generate (posix "/base")
               (sample_compiler [] emit_nothing parse_module)
               JS.LF (pkg_options [] (Some "./a")) in
  written run <> alias_block JS.LF JS.TAB "pkg" "pkg/a"
  /\ written run = alias_block JS.LF JS.TAB "pkg" "./a"
  /\ occurs_in "pkg/a" (output run) = false.
Proof. vm_compute. repeat split. discriminate. Qed.

(** * Further properties *)

(** ** Steps that only append *)

Lemma appends_nil (run : Run) : appends [] [] run = run.
Proof. destruct run. unfold appends. simpl. now rewrite !app_nil_r. Qed.

Lemma appends_appends (chunks chunks' msgs msgs' : list jsstring) (run : Run) :
  appends chunks' msgs' (appends chunks msgs run)
  = appends (chunks ++ chunks') (msgs ++ msgs') run.
Proof. unfold appends. simpl. now rewrite !app_assoc. Qed.

Lemma write_appends (chunk : jsstring) (run : Run) :
  write chunk run = appends [chunk] [] run.
Proof. unfold write, appends. now rewrite app_nil_r. Qed.

Lemma sendMessage_appends (message : jsstring) (run : Run) :
  sendMessage message run = appends [] [message] run.
Proof. unfold sendMessage, appends. now rewrite app_nil_r. Qed.

Lemma reject_appends (error : Error.t) (chunks msgs : list jsstring) (run : Run) :
  reject error (appends chunks msgs run) = appends chunks msgs (reject error run).
Proof. reflexivity. Qed.

Section RunStructure.

Context {pathUtil : PathUtil} {ts : TypeScript}.
Variable os_EOL : jsstring.
Variable options : Options.t.

Lemma writeDeclaration_appends (declarationFile : SourceFile.t) (run : Run) :
  writeDeclaration os_EOL options declarationFile run
  = appends (declaration_chunks os_EOL options declarationFile) [] run.
Proof.
  unfold declaration_chunks, writeDeclaration.
  destruct (SourceFile.externalModuleIndicator declarationFile).
  - rewrite !write_appends, !appends_appends. reflexivity.
  - rewrite !write_appends. reflexivity.
Qed.

Lemma writeFile_appends (filename data : jsstring) (run : Run) :
  writeFile os_EOL options filename data run
  = appends (emitted_chunks os_EOL options [(filename, data)]) [] run.
Proof.
  unfold writeFile, emitted_chunks. simpl.
  destruct (is_declaration_name filename); simpl.
  - rewrite writeDeclaration_appends, app_nil_r. reflexivity.
  - now rewrite appends_nil.
Qed.

Lemma emitted_appends (files : list (jsstring * jsstring)) (run : Run) :
  fold_left (fun run '(filename, data) => writeFile os_EOL options filename data run)
    files run
  = appends (emitted_chunks os_EOL options files) [] run.
Proof.
  revert run. induction files as [|[filename data] files IH]; intros run.
  - simpl. now rewrite appends_nil.
  - cbn [fold_left]. rewrite IH, writeFile_appends, appends_appends.
    unfold emitted_chunks. simpl. now rewrite app_nil_r.
Qed.

(** What the callback does to a run, whatever the run was before. *)
Lemma processSourceFile_appends (sourceFile : SourceFile.t) (run : Run) :
  processSourceFile os_EOL options sourceFile run
  = (fails options sourceFile,
     let run' :=
       appends (chunks_of os_EOL options sourceFile)
         (if included options sourceFile
          then ["Processing " ++ SourceFile.fileName sourceFile] else [])
         run in
     if fails options sourceFile then
       reject (getError (emitterDiagnostics options sourceFile
                           (emit (program options) sourceFile)))
         run'
     else run').
Proof.
  unfold chunks_of, fails, included, processSourceFile.
  destruct (JS.starts_with (baseDir options)
              (normalize (SourceFile.fileName sourceFile))); simpl;
    [|now rewrite appends_nil].
  destruct (existsb (JS.eqb (SourceFile.fileName sourceFile)) (excludesMap options));
    simpl; [now rewrite appends_nil|].
  destruct (is_declaration_name (SourceFile.fileName sourceFile)); simpl.
  - rewrite !writeDeclaration_appends, !sendMessage_appends, !appends_appends.
    reflexivity.
  - rewrite !emitted_appends, !sendMessage_appends, !appends_appends.
    destruct (emitSkipped (emit (program options) sourceFile)
              || negb (JS.is_nil (diagnostics (emit (program options) sourceFile))));
      simpl; reflexivity.
Qed.

End RunStructure.

(** ** The layout of the output *)

Section RunLayout.

Context {pathUtil : PathUtil} {ts : TypeScript}.
Variable os_EOL : jsstring.
Variable options : Options.t.

Lemma some_sourceFiles_written (sourceFiles : list SourceFile.t) (run : Run) :
  written (some_sourceFiles os_EOL options sourceFiles run)
  = written run
    ++ flat_map (chunks_of os_EOL options)
         (until_failure (fails options) sourceFiles).
Proof.
  revert run. induction sourceFiles as [|sourceFile more IH]; intros run.
  - simpl. now rewrite app_nil_r.
  - cbn [some_sourceFiles until_failure]. rewrite processSourceFile_appends.
    destruct (fails options sourceFile).
    + simpl. now rewrite app_nil_r.
    + rewrite IH. simpl. now rewrite <- app_assoc.
Qed.

Lemma some_sourceFiles_rejected (sourceFiles : list SourceFile.t) (run : Run) :
  rejected run = None ->
  rejected (some_sourceFiles os_EOL options sourceFiles run)
  = option_map
      (fun sourceFile =>
         getError (emitterDiagnostics options sourceFile
                     (emit (program options) sourceFile)))
      (find (fails options) sourceFiles).
Proof.
  revert run. induction sourceFiles as [|sourceFile more IH]; intros run Hrun.
  - exact Hrun.
  - cbn [some_sourceFiles find]. rewrite processSourceFile_appends.
    destruct (fails options sourceFile).
    + simpl. now rewrite Hrun.
    + now apply IH.
Qed.

Lemma writeExterns_appends (run : Run) :
  writeExterns os_EOL options run
  = appends
      (match Options.externs options with
       | Some externs =>
           map (fun path => "/// <reference path=" ++ JS.DQUOTE ++ path
                            ++ JS.DQUOTE ++ " />" ++ eol os_EOL options)
             externs
       | None => []
       end)
      (match Options.externs options with
       | Some externs =>
           map (fun path => "Writing external dependency " ++ path) externs
       | None => []
       end)
      run.
Proof.
  unfold writeExterns.
  destruct (Options.externs options) as [externs|]; [|now rewrite appends_nil].
  revert run. induction externs as [|path externs IH]; intros run.
  - simpl. now rewrite appends_nil.
  - cbn [fold_left map]. rewrite IH.
    rewrite write_appends, sendMessage_appends, !appends_appends. reflexivity.
Qed.

(** X1. When [externs] is configured, the run starts with one chunk per
    path, in the order of the list, each the reference pragma of the path
    followed by the line break, and with one message per path; without
    [externs] it starts with nothing. *)
Theorem writeExterns_pragmas :
  written (writeExterns os_EOL options started)
  = match Options.externs options with
    | Some externs =>
        map (fun path => "/// <reference path=" ++ JS.DQUOTE ++ path
                         ++ JS.DQUOTE ++ " />" ++ eol os_EOL options)
          externs
    | None => []
    end
  /\ messages (writeExterns os_EOL options started)
     = match Options.externs options with
       | Some externs =>
           map (fun path => "Writing external dependency " ++ path) externs
       | None => []
       end
  /\ rejected (writeExterns os_EOL options started) = None.
Proof. rewrite writeExterns_appends. repeat split. Qed.

(** X2. The chunks of a run are, in this order: the reference pragmas, the
    chunks of the files of the program up to the first one that fails (its
    own chunks included, no file after it), and the alias block when a main
    module is configured. The chunks of a file do not depend on what was
    written before it. *)
Theorem generate_written_in_order :
  written (generate os_EOL options)
  = match Options.externs options with
    | Some externs =>
        map (fun path => "/// <reference path=" ++ JS.DQUOTE ++ path
                         ++ JS.DQUOTE ++ " />" ++ eol os_EOL options)
          externs
    | None => []
    end
    ++ flat_map (chunks_of os_EOL options)
         (until_failure (fails options) (getSourceFiles (program options)))
    ++ match Options.main options with
       | Some (c :: main) =>
           alias_block (eol os_EOL options) (indent options) (Options.name options)
             (c :: main)
       | _ => []
       end.
Proof.
  unfold generate. cbn [written end_output].
  set (run := some_sourceFiles os_EOL options (getSourceFiles (program options))
                (writeExterns os_EOL options started)).
  assert (Hmain : written (writeMain os_EOL options run)
                  = written run
                    ++ match Options.main options with
                       | Some (c :: main) =>
                           alias_block (eol os_EOL options) (indent options)
                             (Options.name options) (c :: main)
                       | _ => []
                       end).
  { unfold writeMain. destruct (Options.main options) as [[|c m]|];
      simpl; rewrite ?app_nil_r; try reflexivity.
    now rewrite <- !app_assoc. }
  rewrite Hmain. unfold run.
  rewrite some_sourceFiles_written, writeExterns_appends.
  now rewrite <- app_assoc.
Qed.

Lemma generate_rejected_by_find :
  rejected (generate os_EOL options)
  = option_map
      (fun sourceFile =>
         getError (emitterDiagnostics options sourceFile
                     (emit (program options) sourceFile)))
      (find (fails options) (getSourceFiles (program options))).
Proof.
  unfold generate. cbn [rejected end_output].
  assert (Hmain : forall run, rejected (writeMain os_EOL options run) = rejected run).
  { intros run. unfold writeMain.
    now destruct (Options.main options) as [[|c m]|]. }
  rewrite Hmain. apply some_sourceFiles_rejected.
  now rewrite writeExterns_appends.
Qed.


(** X6. The message of the error of a rejected run is the header followed
    by the lines of the diagnostics of the first failing file: those of the
    emitter, then the semantic, the syntactic and the declaration ones. A
    file the emitter skips without any diagnostic gives the header alone. *)
Theorem generate_error_message (sourceFile : SourceFile.t) :
  find (fails options) (getSourceFiles (program options)) = Some sourceFile ->
  option_map Error.message (rejected (generate os_EOL options))
  = Some ("Declaration generation failed"
          ++ flat_map diagnosticLine (diagnostics (emit (program options) sourceFile))
          ++ flat_map diagnosticLine (getSemanticDiagnostics (program options) sourceFile)
          ++ flat_map diagnosticLine (getSyntacticDiagnostics (program options) sourceFile)
          ++ flat_map diagnosticLine (getDeclarationDiagnostics (program options) sourceFile)).
Proof.
  intros Hfind. rewrite generate_rejected_by_find, Hfind.
  unfold getError, emitterDiagnostics. cbn [option_map Error.message].
  now rewrite fold_left_append, !flat_map_app.
Qed.



(** X5. For a file the emitter is asked for, failing or not, the chunks
    written are those of the declarations the emitter writes for it, in the
    order it writes them; what it writes under a name that does not end in
    [.d.ts] leaves no chunk. *)
Theorem chunks_of_emitted (sourceFile : SourceFile.t) :
  included options sourceFile = true ->
  is_declaration_name (SourceFile.fileName sourceFile) = false ->
  chunks_of os_EOL options sourceFile
  = flat_map
      (fun '(filename, data) =>
         if is_declaration_name filename then
           written (writeDeclaration os_EOL options
                      (createSourceFile filename data (target options)) started)
         else [])
      (emitted (emit (program options) sourceFile)).
Proof.
  intros Hincluded Hname. unfold chunks_of, processSourceFile.
  unfold included in Hincluded. apply andb_prop in Hincluded as [Hbase Hexcluded].
  apply negb_true_iff in Hexcluded. rewrite Hbase, Hexcluded, Hname. simpl.
  rewrite emitted_appends.
  now destruct (emitSkipped (emit (program options) sourceFile)
                || negb (JS.is_nil (diagnostics (emit (program options) sourceFile)))).
Qed.

End RunLayout.

Lemma chunks_of_emitted_witness :
  @chunks_of (posix "/base") (sample_compiler [module_a] emit_both parse_module)
    JS.LF (pkg_options ["a.ts"] None) module_a
  = [ "declare module 'pkg/a' {" ++ JS.LF ++ JS.TAB;
      list_ascii_of_string "export declare var a: number;";
      JS.LF ++ "}" ++ JS.LF ].
Proof.
  rewrite (@chunks_of_emitted (posix "/base")
             (sample_compiler [module_a] emit_both parse_module)
             JS.LF (pkg_options ["a.ts"] None) module_a eq_refl eq_refl).
  reflexivity.
Defined.

Lemma generate_error_message_witness :
  option_map Error.message
    (rejected (@generate (posix "/base")
                 (sample_compiler [ambient_file; bad_module; module_a] emit_failing parse_module)
                 JS.LF (pkg_options ["bad.ts"] None)))
  = Some ("Declaration generation failed" ++ JS.LF ++
          "/base/bad.ts(1,12): error TS2322: Type 'string' is not assignable to type 'number'.").
Proof.
  rewrite (@generate_error_message (posix "/base")
             (sample_compiler [ambient_file; bad_module; module_a] emit_failing parse_module)
             JS.LF (pkg_options ["bad.ts"] None) bad_module eq_refl).
  reflexivity.
Defined.

(** ** File names *)

Lemma filenameToMid_map {pathUtil : PathUtil} (filename : jsstring) :
  filenameToMid filename
  = map (fun c => if Ascii.eqb c sep then "/"%char else c) filename.
Proof.
  unfold filenameToMid. destruct (Ascii.eqb_spec sep "/") as [Hsep|_]; [|reflexivity].
  rewrite Hsep. induction filename as [|c filename IH]; [reflexivity|].
  simpl. rewrite <- IH. now destruct (Ascii.eqb_spec c "/") as [->|_].
Qed.

(** X7. [filenameToMid] keeps the length of a name, changes nothing when
    applied a second time, and leaves a separator of the host in the name
    only where the separator is the slash. *)
Theorem filenameToMid_normal_form {pathUtil : PathUtil} (filename : jsstring) :
  List.length (filenameToMid filename) = List.length filename
  /\ filenameToMid (filenameToMid filename) = filenameToMid filename
  /\ existsb (Ascii.eqb sep) (filenameToMid filename)
     = Ascii.eqb sep "/" && existsb (Ascii.eqb sep) filename.
Proof.
  rewrite !filenameToMid_map. split; [apply length_map|]. split.
  - rewrite map_map. apply map_ext. intros c.
    destruct (Ascii.eqb_spec c sep) as [_|Hc].
    + now destruct (Ascii.eqb_spec "/" sep).
    + destruct (Ascii.eqb_spec c sep); [contradiction|reflexivity].
  - rewrite <- filenameToMid_map. unfold filenameToMid.
    destruct (Ascii.eqb_spec sep "/") as [Hsep|Hsep]; [reflexivity|].
    simpl. induction filename as [|c filename IH]; [reflexivity|].
    cbn [map existsb]. rewrite IH, orb_false_r.
    destruct (Ascii.eqb_spec c sep) as [_|Hc]; apply Ascii.eqb_neq; congruence.
Qed.

(** X8. On a POSIX host whose working directory is absolute, every file
    name handed to the compiler is absolute, and there is one for each
    configured input path, in the same order. *)
Theorem getFilenames_absolute (cwd : jsstring) (options : Options.t) :
  Posix.isAbsolute cwd = true ->
  forallb Posix.isAbsolute (@filenames (posix cwd) options) = true
  /\ List.length (@filenames (posix cwd) options)
     = List.length (Options.files options).
Proof.
  intros Hcwd. unfold filenames, getFilenames. split; [|apply length_map].
  apply forallb_forall. intros resolved Hin.
  apply in_map_iff in Hin as (filename & <- & _). simpl.
  destruct (JS.starts_with _ _); now apply posix_resolve_absolute.
Qed.

Lemma getFilenames_absolute_witness :
  forallb Posix.isAbsolute
    (@filenames (posix "/home/u") (pkg_options ["a.ts"; "../x/b.ts"; "/base/c.ts"] None))
  = true.
Proof.
  apply (getFilenames_absolute "/home/u"
           (pkg_options ["a.ts"; "../x/b.ts"; "/base/c.ts"] None) eq_refl).
Defined.

(** ** Indentation at its edges *)






(** ** Declaration names *)

Lemma JS_eqb_eq (s t : jsstring) : JS.eqb s t = true <-> s = t.
Proof.
  revert t. induction s as [|a s IH]; intros [|b t]; simpl;
    try (split; [discriminate|congruence]); [tauto|].
  rewrite andb_true_iff, Ascii.eqb_eq, IH. split.
  - now intros [-> ->].
  - intros H. inversion H. auto.
Qed.

Lemma slice_from_last (s : jsstring) (n : nat) :
  (0 < n)%nat ->
  JS.slice_from s (- Z.of_nat n) = skipn (List.length s - n) s.
Proof.
  intros Hn. unfold JS.slice_from, JS.slice, JS.relative_index, JS.length.
  destruct (Z.ltb_spec (- Z.of_nat n) 0); [|lia].
  destruct (Z.ltb_spec (Z.of_nat (List.length s)) 0); [lia|].
  replace (Z.to_nat (Z.max (Z.of_nat (List.length s) + - Z.of_nat n) 0))
    with (List.length s - n)%nat by lia.
  apply firstn_all2. rewrite length_skipn. lia.
Qed.

(** X11. A name counts as the name of a declaration file exactly when it
    is some string followed by [.d.ts]; a name shorter than that never
    does. *)
Theorem is_declaration_name_suffix (filename : jsstring) :
  is_declaration_name filename = true
  <-> exists stem, filename = stem ++ ".d.ts".
Proof.
  unfold is_declaration_name. rewrite JS_eqb_eq.
  change (-5) with (- Z.of_nat 5). rewrite slice_from_last by lia. split.
  - intros H. exists (firstn (List.length filename - 5) filename).
    rewrite <- H. symmetry. apply firstn_skipn.
  - intros (stem & ->). rewrite length_app. simpl List.length.
    replace (List.length stem + 5 - 5)%nat with (List.length stem + 0)%nat by lia.
    rewrite skipn_app, skipn_all2 by lia.
    replace (List.length stem + 0 - List.length stem)%nat with 0%nat by lia.
    reflexivity.
Qed.

(** ** What the rewriter depends on *)

Lemma visit_ext (sourceFile : SourceFile.t) (replacer replacer' : Node -> option jsstring)
    (node : Node) :
  (forall n, within n node -> replacer n = replacer' n) ->
  forall st, visit sourceFile replacer node st = visit sourceFile replacer' node st.
Proof.
  induction node as [node IH] using Node_children_ind.
  intros Hagree st. rewrite !visit_unfold.
  rewrite <- (Hagree node (within_self node)).
  destruct (replacer node); [reflexivity|].
  assert (Hchildren : forall child, In child (children node) ->
            forall n, within n child -> replacer n = replacer' n).
  { intros child Hin n Hn. apply Hagree. eapply within_child; eassumption. }
  generalize (readThrough sourceFile node st) as st'.
  unfold forEachChild_visit.
  induction (children node) as [|child more IHmore]; intros st'; [reflexivity|].
  cbn [fold_left]. inversion IH as [|? ? Hchild Hmore]; subst.
  rewrite Hchild by (apply Hchildren; now left).
  apply IHmore; [exact Hmore|].
  intros child' Hin. apply Hchildren. now right.
Qed.

(** X12. The output of the rewriter depends on the replacer only through
    what it gives for the nodes of the tree of the file: two replacers that
    agree on these nodes give the same output, whatever the tree. *)
Theorem processTree_ext (sourceFile : SourceFile.t)
    (replacer replacer' : Node -> option jsstring) :
  (forall node, within node (SourceFile.root sourceFile) ->
                replacer node = replacer' node) ->
  processTree sourceFile replacer = processTree sourceFile replacer'.
Proof.
  intros Hagree. unfold processTree.
  now rewrite (visit_ext sourceFile replacer replacer' _ Hagree).
Qed.

Lemma within_nodes (node root : Node) : within node root -> In node (nodes root).
Proof.
  induction 1 as [|child ancestor Hchild _ IH].
  - destruct node. now left.
  - destruct ancestor as [k p a b t cs]. right. simpl in *.
    apply in_flat_map. eauto.
Qed.

Lemma processTree_ext_witness :
  processTree declare_var remove_declare
  = processTree declare_var (@declarationReplacer (posix "/") "pkg/v").
Proof.
  apply (processTree_ext declare_var remove_declare
           (@declarationReplacer (posix "/") "pkg/v")).
  intros node Hnode. apply within_nodes in Hnode. simpl in Hnode.
  repeat (destruct Hnode as [<-|Hnode]; [reflexivity|]). contradiction.
Defined.

Lemma processTree_identity_on_tree (sourceFile : SourceFile.t)
    (replacer : Node -> option jsstring) :
  well_formed_file sourceFile = true ->
  (forall node, within node (SourceFile.root sourceFile) -> replacer node = None) ->
  processTree sourceFile replacer = SourceFile.text sourceFile.
Proof.
  intros Hwf Hnone. unfold well_formed_file in Hwf.
  apply andb_prop in Hwf as [Hwf Hroot]. apply andb_prop in Hwf as [Hpos Hend].
  apply Z.leb_le in Hpos, Hend.
  destruct (visit_covers_all sourceFile replacer (SourceFile.root sourceFile)
              {| code := []; cursorPosition := 0 |} Hroot Hpos)
    as (spans & (Hcode & Htiles & Hspans) & Hcur).
  unfold processTree.
  set (st := visit sourceFile replacer (SourceFile.root sourceFile)
               {| code := []; cursorPosition := 0 |}) in *.
  simpl in Hcode, Htiles. rewrite Hcode.
  destruct (through_spans_text sourceFile spans) with (a := 0) (b := cursorPosition st)
    as [Hle ->]; [|lia|exact Htiles|].
  - eapply Forall_impl; [|exact Hspans].
    intros [from to|node replacement]; simpl; [eauto|].
    intros [Hrep Hin]. rewrite (Hnone node Hin) in Hrep. discriminate.
  - rewrite <- slice_from_zero. apply slice_append_from; lia.
Qed.

(** X13. On a file whose tree is well formed, a replacer that gives nothing
    for the nodes of the tree leaves the text as it is, whatever it would
    give for other nodes. *)
Theorem processTree_untouched (sourceFile : SourceFile.t)
    (replacer : Node -> option jsstring) :
  well_formed_file sourceFile = true ->
  (forall node, within node (SourceFile.root sourceFile) -> replacer node = None) ->
  processTree sourceFile replacer = SourceFile.text sourceFile.
Proof. apply processTree_identity_on_tree. Qed.

Lemma processTree_untouched_witness :
  processTree import_x remove_declare = SourceFile.text import_x.
Proof.
  apply (processTree_untouched import_x remove_declare); [reflexivity|].
  intros node Hnode. apply within_nodes in Hnode. simpl in Hnode.
  repeat (destruct Hnode as [<-|Hnode]; [reflexivity|]). contradiction.
Defined.

(** ** Relative references on a POSIX host *)

Lemma plain_segment_inv (segment : jsstring) :
  plain_segment segment = true ->
  segment <> []
  /\ existsb (Ascii.eqb Posix.slash) segment = false
  /\ JS.eqb segment "." = false
  /\ JS.eqb segment ".." = false.
Proof.
  unfold plain_segment. intros H.
  apply andb_prop in H as [H Hdotdot]. apply andb_prop in H as [H Hdot].
  apply andb_prop in H as [Hnil Hslash].
  apply negb_true_iff in Hdotdot, Hdot, Hslash.
  repeat split; auto. intros ->. discriminate.
Qed.

Lemma join_parts_cons (part : jsstring) (parts : list jsstring) :
  Posix.join_parts (part :: parts) = part ++ flat_map (cons Posix.slash) parts.
Proof.
  revert part. induction parts as [|next parts IH]; intros part.
  - simpl. now rewrite app_nil_r.
  - change (Posix.join_parts (part :: next :: parts))
      with (part ++ Posix.slash :: Posix.join_parts (next :: parts)).
    now rewrite IH.
Qed.

Lemma join_parts_app (parts parts' : list jsstring) :
  parts <> [] -> parts' <> [] ->
  Posix.join_parts (parts ++ parts')
  = Posix.join_parts parts ++ Posix.slash :: Posix.join_parts parts'.
Proof.
  intros Hparts Hparts'.
  destruct parts as [|part parts]; [congruence|].
  destruct parts' as [|part' parts']; [congruence|].
  rewrite <- app_comm_cons, !join_parts_cons, flat_map_app. simpl.
  now rewrite <- app_assoc.
Qed.

Lemma split_segment (part rest : jsstring) :
  existsb (Ascii.eqb Posix.slash) part = false ->
  Posix.split (part ++ Posix.slash :: rest) = part :: Posix.split rest.
Proof.
  induction part as [|c part IH]; intros Hfree.
  - reflexivity.
  - cbn [existsb] in Hfree. apply orb_false_elim in Hfree as [Hc Hfree].
    rewrite <- app_comm_cons. cbn [Posix.split].
    rewrite Ascii.eqb_sym, Hc, IH by exact Hfree. reflexivity.
Qed.

Lemma split_last (part : jsstring) :
  existsb (Ascii.eqb Posix.slash) part = false ->
  Posix.split part = [part].
Proof.
  induction part as [|c part IH]; intros Hfree.
  - reflexivity.
  - cbn [existsb] in Hfree. apply orb_false_elim in Hfree as [Hc Hfree].
    cbn [Posix.split]. rewrite Ascii.eqb_sym, Hc, IH by exact Hfree. reflexivity.
Qed.

Lemma split_join_parts (parts : list jsstring) :
  parts <> [] ->
  forallb (fun part => negb (existsb (Ascii.eqb Posix.slash) part)) parts = true ->
  Posix.split (Posix.join_parts parts) = parts.
Proof.
  intros Hne Hfree. destruct parts as [|part parts]; [congruence|]. clear Hne.
  revert part Hfree. induction parts as [|next parts IH]; intros part Hfree.
  - simpl in Hfree. rewrite andb_true_r in Hfree. apply negb_true_iff in Hfree.
    now apply split_last.
  - cbn [forallb] in Hfree. apply andb_prop in Hfree as [Hpart Hfree].
    apply negb_true_iff in Hpart.
    change (Posix.join_parts (part :: next :: parts))
      with (part ++ Posix.slash :: Posix.join_parts (next :: parts)).
    rewrite split_segment by exact Hpart. now rewrite IH.
Qed.

Lemma normalizeArray_plain (res parts more : list jsstring) (allowAboveRoot : bool) :
  forallb plain_segment parts = true ->
  Posix.normalizeArray_from res (parts ++ more) allowAboveRoot
  = Posix.normalizeArray_from (rev parts ++ res) more allowAboveRoot.
Proof.
  revert res. induction parts as [|part parts IH]; intros res Hplain.
  - reflexivity.
  - cbn [forallb] in Hplain. apply andb_prop in Hplain as [Hpart Hplain].
    destruct (plain_segment_inv part Hpart) as (Hne & _ & Hdot & Hdotdot).
    rewrite <- app_comm_cons. cbn [Posix.normalizeArray_from].
    destruct part as [|c part]; [congruence|]. simpl JS.is_nil.
    rewrite Hdot, Hdotdot. simpl. rewrite IH by exact Hplain.
    simpl. now rewrite <- app_assoc.
Qed.

Lemma normalizeArray_from_nil (res : list jsstring) (allowAboveRoot : bool) :
  Posix.normalizeArray_from res [] allowAboveRoot = rev res.
Proof. reflexivity. Qed.

Lemma plain_no_slash (parts : list jsstring) :
  forallb plain_segment parts = true ->
  forallb (fun part => negb (existsb (Ascii.eqb Posix.slash) part)) parts = true.
Proof.
  intros H. apply forallb_forall. intros part Hin.
  rewrite forallb_forall in H.
  destruct (plain_segment_inv part (H part Hin)) as (_ & Hslash & _).
  now rewrite Hslash.
Qed.

Lemma existsb_reverse {A} (f : A -> bool) (l : list A) :
  existsb f (rev l) = existsb f l.
Proof.
  induction l as [|a l IH]; [reflexivity|].
  simpl. rewrite existsb_app, IH. simpl. rewrite orb_false_r. apply orb_comm.
Qed.

(** The path of plain segments is neither absolute nor ends in a slash. *)
Lemma join_parts_plain_shape (parts : list jsstring) :
  parts <> [] ->
  forallb plain_segment parts = true ->
  Posix.join_parts parts <> []
  /\ Posix.isAbsolute (Posix.join_parts parts) = false
  /\ Posix.ends_with_slash (Posix.join_parts parts) = false.
Proof.
  intros Hne Hplain. split; [|split].
  - destruct parts as [|part parts]; [congruence|].
    cbn [forallb] in Hplain. apply andb_prop in Hplain as [Hpart _].
    destruct (plain_segment_inv part Hpart) as (Hpne & _).
    rewrite join_parts_cons. destruct part; [congruence|discriminate].
  - destruct parts as [|part parts]; [congruence|].
    cbn [forallb] in Hplain. apply andb_prop in Hplain as [Hpart _].
    destruct (plain_segment_inv part Hpart) as (Hpne & Hslash & _).
    rewrite join_parts_cons. destruct part as [|c part]; [congruence|].
    cbn [existsb] in Hslash. apply orb_false_elim in Hslash as [Hc _].
    simpl. now rewrite Ascii.eqb_sym.
  - destruct (exists_last Hne) as (init & last & Heq). subst parts.
    rewrite forallb_app in Hplain. apply andb_prop in Hplain as [_ Hlastp].
    simpl in Hlastp. rewrite andb_true_r in Hlastp.
    destruct (plain_segment_inv last Hlastp) as (Hlne & Hlslash & _).
    assert (Hshape : exists prefix, Posix.join_parts (init ++ [last]) = prefix ++ last).
    { destruct init as [|i init]; [exists []; reflexivity|].
      rewrite join_parts_app by discriminate. simpl Posix.join_parts at 2.
      exists (Posix.join_parts (i :: init) ++ [Posix.slash]).
      now rewrite <- app_assoc. }
    destruct Hshape as (prefix & ->).
    unfold Posix.ends_with_slash. rewrite rev_app_distr.
    destruct (rev last) as [|l rl] eqn:Hrev.
    + apply (f_equal (@rev ascii)) in Hrev. rewrite rev_involutive in Hrev.
      simpl in Hrev. congruence.
    + simpl. rewrite <- existsb_reverse, Hrev in Hlslash. cbn [existsb] in Hlslash.
      apply orb_false_elim in Hlslash as [Hl _]. now rewrite Ascii.eqb_sym.
Qed.

Lemma isAbsolute_app (u v : jsstring) :
  u <> [] -> Posix.isAbsolute (u ++ v) = Posix.isAbsolute u.
Proof. destruct u; [congruence|reflexivity]. Qed.

Lemma ends_with_slash_app (u v : jsstring) :
  v <> [] -> Posix.ends_with_slash (u ++ v) = Posix.ends_with_slash v.
Proof.
  intros Hv. unfold Posix.ends_with_slash. rewrite rev_app_distr.
  destruct (rev v) eqn:Hrev; [|reflexivity].
  apply (f_equal (@rev ascii)) in Hrev. rewrite rev_involutive in Hrev.
  simpl in Hrev. congruence.
Qed.

(** What [normalize] makes of a path whose parts normalize to plain
    segments, the first and the last part of the path being plain. *)
Lemma posix_normalize_parts (parts normal : list jsstring) :
  parts <> [] -> normal <> [] ->
  forallb (fun part => negb (existsb (Ascii.eqb Posix.slash) part)) parts = true ->
  forallb plain_segment normal = true ->
  Posix.isAbsolute (Posix.join_parts parts) = false ->
  Posix.ends_with_slash (Posix.join_parts parts) = false ->
  Posix.normalizeArray parts true = normal ->
  Posix.normalize (Posix.join_parts parts) = Posix.join_parts normal.
Proof.
  intros Hparts Hnormal Hfree Hplain Habs Htrail Hnorm.
  unfold Posix.normalize. rewrite Habs, Htrail, split_join_parts by assumption.
  simpl negb. rewrite Hnorm.
  destruct (join_parts_plain_shape normal Hnormal Hplain) as (Hne & _).
  destruct (Posix.join_parts normal); [congruence|reflexivity].
Qed.

(** The join of a directory of plain segments with a relative path that
    starts with a part without slash. *)
Lemma posix_join_relative (segments : list jsstring) (first : jsstring)
    (path normal : list jsstring) :
  segments <> [] -> path <> [] -> normal <> [] ->
  forallb plain_segment segments = true ->
  forallb plain_segment path = true ->
  forallb plain_segment normal = true ->
  existsb (Ascii.eqb Posix.slash) first = false ->
  Posix.normalizeArray (segments ++ first :: path) true = normal ->
  Posix.join [Posix.join_parts segments; first ++ Posix.slash :: Posix.join_parts path]
  = Posix.join_parts normal.
Proof.
  intros Hsegments Hpath Hnormal Hplain Hplain' Hplain'' Hfirst Hnorm.
  destruct (join_parts_plain_shape segments Hsegments Hplain) as (Hne & Habs & _).
  destruct (join_parts_plain_shape path Hpath Hplain') as (Hne' & _ & Htrail).
  assert (Hnil : JS.is_nil (Posix.join_parts segments) = false)
    by (destruct (Posix.join_parts segments); [congruence|reflexivity]).
  assert (Hnil' : JS.is_nil (first ++ Posix.slash :: Posix.join_parts path) = false)
    by (destruct first; reflexivity).
  unfold Posix.join. cbn [filter]. rewrite Hnil, Hnil'. simpl negb. cbv iota.
  assert (Hrel : first ++ Posix.slash :: Posix.join_parts path
                 = Posix.join_parts (first :: path)).
  { destruct path; [congruence|reflexivity]. }
  change (Posix.join_parts [Posix.join_parts segments;
                            first ++ Posix.slash :: Posix.join_parts path])
    with (Posix.join_parts segments
          ++ Posix.slash :: (first ++ Posix.slash :: Posix.join_parts path)).
  assert (Hwhole : Posix.join_parts segments
                   ++ Posix.slash :: (first ++ Posix.slash :: Posix.join_parts path)
                   = Posix.join_parts (segments ++ first :: path)).
  { rewrite Hrel. symmetry. apply join_parts_app; [assumption|discriminate]. }
  assert (Htrail' : Posix.ends_with_slash
                      (Posix.join_parts segments
                       ++ Posix.slash :: (first ++ Posix.slash :: Posix.join_parts path))
                    = false).
  { replace (Posix.join_parts segments
             ++ Posix.slash :: (first ++ Posix.slash :: Posix.join_parts path))
      with ((Posix.join_parts segments ++ Posix.slash :: first ++ [Posix.slash])
            ++ Posix.join_parts path)
      by (rewrite <- !app_assoc; simpl; rewrite <- app_assoc; reflexivity).
    rewrite ends_with_slash_app by exact Hne'. exact Htrail. }
  rewrite Hwhole in *.
  apply posix_normalize_parts; auto.
  - destruct segments; [congruence|discriminate].
  - rewrite forallb_app. cbn [forallb].
    rewrite !plain_no_slash by assumption. now rewrite Hfirst.
  - rewrite <- Hwhole. rewrite isAbsolute_app by exact Hne. exact Habs.
Qed.

Lemma posix_join_below (segments path : list jsstring) :
  segments <> [] -> path <> [] ->
  forallb plain_segment segments = true ->
  forallb plain_segment path = true ->
  Posix.join [Posix.join_parts segments; "./" ++ Posix.join_parts path]
  = Posix.join_parts (segments ++ path).
Proof.
  intros Hsegments Hpath Hplain Hplain'.
  apply (posix_join_relative segments "." path (segments ++ path)); auto.
  - destruct segments; [congruence|discriminate].
  - now rewrite forallb_app, Hplain, Hplain'.
  - unfold Posix.normalizeArray.
    rewrite normalizeArray_plain by exact Hplain.
    change (Posix.normalizeArray_from (rev segments ++ [])
              (list_ascii_of_string "." :: path) true)
      with (Posix.normalizeArray_from (rev segments ++ []) path true).
    rewrite <- (app_nil_r path) at 1.
    rewrite normalizeArray_plain by exact Hplain'.
    rewrite normalizeArray_from_nil, app_nil_r, rev_app_distr, !rev_involutive.
    reflexivity.
Qed.

Lemma posix_join_above (segments : list jsstring) (directory : jsstring)
    (path : list jsstring) :
  path <> [] ->
  forallb plain_segment segments = true ->
  plain_segment directory = true ->
  forallb plain_segment path = true ->
  Posix.join [Posix.join_parts (segments ++ [directory]);
              "../" ++ Posix.join_parts path]
  = Posix.join_parts (segments ++ path).
Proof.
  intros Hpath Hplain Hdirectory Hplain'.
  assert (Hall : forallb plain_segment (segments ++ [directory]) = true).
  { rewrite forallb_app, Hplain. simpl. now rewrite Hdirectory. }
  apply (posix_join_relative (segments ++ [directory]) ".." path (segments ++ path));
    auto.
  - destruct segments; discriminate.
  - destruct segments; [assumption|discriminate].
  - now rewrite forallb_app, Hplain, Hplain'.
  - unfold Posix.normalizeArray.
    rewrite normalizeArray_plain by exact Hall.
    rewrite rev_app_distr. simpl rev. rewrite <- app_assoc. simpl app.
    destruct (plain_segment_inv directory Hdirectory) as (_ & _ & _ & Hdotdot).
    cbn [Posix.normalizeArray_from]. simpl JS.is_nil. simpl JS.eqb at 1 2.
    simpl orb. cbv iota. rewrite Hdotdot. simpl negb. cbv iota.
    rewrite <- (app_nil_r path) at 1.
    rewrite normalizeArray_plain by exact Hplain'.
    rewrite normalizeArray_from_nil, rev_app_distr, !rev_involutive.
    now rewrite !app_nil_r, rev_involutive.
Qed.

Lemma dirname_end_segment (segment_rev more : jsstring) (matchedSlash : bool) :
  existsb (Ascii.eqb Posix.slash) segment_rev = false ->
  (segment_rev = [] -> matchedSlash = false) ->
  Posix.dirname_end (segment_rev ++ Posix.slash :: more) matchedSlash
  = Some (S (List.length more)).
Proof.
  revert matchedSlash.
  induction segment_rev as [|c segment_rev IH]; intros matchedSlash Hfree Hmatched.
  - rewrite Hmatched by reflexivity. reflexivity.
  - cbn [existsb] in Hfree. apply orb_false_elim in Hfree as [Hc Hfree].
    rewrite <- app_comm_cons. cbn [Posix.dirname_end].
    rewrite Ascii.eqb_sym, Hc. now apply IH.
Qed.

Lemma posix_dirname_leaf (segments : list jsstring) (leaf : jsstring) :
  segments <> [] ->
  forallb plain_segment segments = true ->
  plain_segment leaf = true ->
  Posix.dirname (Posix.join_parts (segments ++ [leaf])) = Posix.join_parts segments.
Proof.
  intros Hsegments Hplain Hleaf.
  destruct (join_parts_plain_shape segments Hsegments Hplain) as (Hne & Habs & _).
  destruct (plain_segment_inv leaf Hleaf) as (Hlne & Hlslash & _).
  rewrite join_parts_app by (assumption || discriminate).
  simpl Posix.join_parts at 2.
  destruct (Posix.join_parts segments) as [|c d]; [congruence|].
  rewrite <- app_comm_cons. unfold Posix.dirname.
  simpl in Habs. rewrite Habs.
  rewrite rev_app_distr. simpl rev. rewrite <- app_assoc. simpl app.
  rewrite dirname_end_segment.
  - simpl andb. cbv iota. rewrite length_rev.
    change (firstn (S (List.length d)) (c :: d ++ Posix.slash :: leaf))
      with (c :: firstn (List.length d) (d ++ Posix.slash :: leaf)).
    rewrite firstn_app, Nat.sub_diag, firstn_all. simpl. now rewrite app_nil_r.
  - now rewrite existsb_reverse.
  - intros Hrev. apply (f_equal (@rev ascii)) in Hrev.
    rewrite rev_involutive in Hrev. simpl in Hrev. congruence.
Qed.

Lemma declarationReplacer_rewritable {pathUtil : PathUtil}
    (sourceModuleId : jsstring) (node : Node) :
  rewritable node = false -> declarationReplacer sourceModuleId node = None.
Proof.
  unfold rewritable, declarationReplacer, expression, parent_is.
  destruct (kind node); simpl; try reflexivity; try discriminate.
  - destruct (hd_error (children node)); [|reflexivity]. now intros ->.
  - destruct (parent node) as [[]|]; simpl; try reflexivity; now intros ->.
Qed.

(** X14. A module whose tree is well formed and has no rewritable node (no
    [declare] keyword, no relative external module reference, no relative
    path in an import or export declaration) is written as three chunks:
    the opening of its block, its own text with the lines indented, and the
    closing of the block. *)
Theorem writeDeclaration_untouched {pathUtil : PathUtil}
    (os_EOL : jsstring) (options : Options.t) (declarationFile : SourceFile.t) :
  SourceFile.externalModuleIndicator declarationFile = true ->
  well_formed_file declarationFile = true ->
  forallb (fun node => negb (rewritable node)) (nodes (SourceFile.root declarationFile))
  = true ->
  written (writeDeclaration os_EOL options declarationFile started)
  = [ "declare module '"
      ++ sourceModuleId options (SourceFile.fileName declarationFile)
      ++ "' {" ++ eol os_EOL options ++ indent options;
      Indent.indentLines (eol os_EOL options) (indent options)
        (SourceFile.text declarationFile);
      eol os_EOL options ++ "}" ++ eol os_EOL options ].
Proof.
  intros Hmodule Hwf Hnodes. unfold writeDeclaration. rewrite Hmodule.
  rewrite processTree_identity_on_tree; [reflexivity|exact Hwf|].
  intros node Hnode. apply declarationReplacer_rewritable.
  rewrite forallb_forall in Hnodes.
  apply negb_true_iff, Hnodes. now apply within_nodes.
Qed.

Lemma writeDeclaration_untouched_witness :
  List.concat (written (@writeDeclaration (posix "/base") JS.LF
                          (pkg_options ["p.d.ts"] None) plain_module started))
  = "declare module 'pkg/p' {" ++ JS.LF ++ JS.TAB
    ++ "import q = require('q');" ++ JS.LF ++ JS.TAB ++ "export var a: q.T;"
    ++ JS.LF ++ "}" ++ JS.LF.
Proof.
  rewrite (@writeDeclaration_untouched (posix "/base") JS.LF
             (pkg_options ["p.d.ts"] None) plain_module eq_refl eq_refl eq_refl).
  reflexivity.
Defined.

Lemma sourceModuleId_under_posix (cwd : jsstring) (options : Options.t)
    (components : list jsstring) :
  @sourceModuleId (posix cwd) options
    (path_under "/" (@baseDir (posix cwd) options) components ++ ".d.ts")
  = Options.name options ++ flat_map (cons Posix.slash) components.
Proof.
  unfold sourceModuleId, path_under. rewrite <- app_assoc.
  change (-5) with (- Z.of_nat (List.length (list_ascii_of_string ".d.ts"))).
  rewrite slice_middle by discriminate. reflexivity.
Qed.

Lemma join_parts_under (segments components : list jsstring) :
  segments <> [] ->
  Posix.join_parts segments ++ flat_map (cons Posix.slash) components
  = Posix.join_parts (segments ++ components).
Proof.
  intros Hne. destruct segments as [|segment segments]; [congruence|].
  rewrite <- app_comm_cons, !join_parts_cons, flat_map_app.
  now rewrite <- app_assoc.
Qed.

Section RelativeReferences.

Variable cwd : jsstring.
Variable options : Options.t.
Variable name_segments : list jsstring.
Hypothesis name_joined : Options.name options = Posix.join_parts name_segments.
Hypothesis name_not_empty : name_segments <> [].
Hypothesis name_plain : forallb plain_segment name_segments = true.

Local Abbreviation module_at components :=
  (@sourceModuleId (posix cwd) options
     (path_under "/" (@baseDir (posix cwd) options) components ++ ".d.ts")).

Lemma module_at_join_parts (components : list jsstring) :
  module_at components = Posix.join_parts (name_segments ++ components).
Proof.
  rewrite sourceModuleId_under_posix, name_joined. now apply join_parts_under.
Qed.

Lemma join_below (dirs : list jsstring) (leaf : jsstring) (path : list jsstring) :
  path <> [] ->
  forallb plain_segment dirs = true ->
  plain_segment leaf = true ->
  forallb plain_segment path = true ->
  Posix.join [Posix.dirname (module_at (dirs ++ [leaf])); "./" ++ Posix.join_parts path]
  = module_at (dirs ++ path).
Proof.
  intros Hpath Hdirs Hleaf Hplain.
  assert (Hsegments : forallb plain_segment (name_segments ++ dirs) = true)
    by now rewrite forallb_app, name_plain, Hdirs.
  assert (Hne : name_segments ++ dirs <> [])
    by (destruct name_segments; [congruence|discriminate]).
  rewrite !module_at_join_parts, !app_assoc.
  rewrite posix_dirname_leaf by assumption.
  now apply posix_join_below.
Qed.

Lemma join_above (dirs : list jsstring) (directory leaf : jsstring)
    (path : list jsstring) :
  path <> [] ->
  forallb plain_segment dirs = true ->
  plain_segment directory = true ->
  plain_segment leaf = true ->
  forallb plain_segment path = true ->
  Posix.join [Posix.dirname (module_at (dirs ++ [directory; leaf]));
              "../" ++ Posix.join_parts path]
  = module_at (dirs ++ path).
Proof.
  intros Hpath Hdirs Hdirectory Hleaf Hplain.
  assert (Hsegments : forallb plain_segment (name_segments ++ dirs) = true)
    by now rewrite forallb_app, name_plain, Hdirs.
  rewrite !module_at_join_parts.
  replace (name_segments ++ dirs ++ [directory; leaf])
    with (((name_segments ++ dirs) ++ [directory]) ++ [leaf])
    by (rewrite <- !app_assoc; reflexivity).
  rewrite posix_dirname_leaf.
  - rewrite posix_join_above by assumption. now rewrite app_assoc.
  - destruct (name_segments ++ dirs); discriminate.
  - rewrite forallb_app, Hsegments. simpl. now rewrite Hdirectory.
  - exact Hleaf.
Qed.

End RelativeReferences.

Lemma declarationReplacer_relative {pathUtil : PathUtil} (here relative : jsstring) :
  JS.first_char_is "." relative = true ->
  rewritten_to here relative (join [dirname here; relative]).
Proof.
  intros Hdot. split.
  - intros node literal Hkind Hexpression Htext.
    unfold declarationReplacer. now rewrite Hkind, Hexpression, Htext, Hdot.
  - intros node Hkind Hparent Htext.
    unfold declarationReplacer, parent_is. rewrite Hkind, Htext, Hdot.
    now destruct Hparent as [-> | ->].
Qed.

(** X15. On a POSIX host, with a namespace name and directories that are
    plain path segments: in the module of the file [dirs/leaf.d.ts] below
    the base directory, a reference to [./path], as an external module
    reference or in an import or export declaration, is rewritten to the
    module identifier of the file [dirs/path.d.ts], the identifier under
    which that file is declared in the bundle. *)
Theorem relative_reference_names_module (cwd : jsstring) (options : Options.t)
    (name_segments dirs : list jsstring) (leaf : jsstring) (path : list jsstring) :
  Options.name options = Posix.join_parts name_segments ->
  negb (JS.is_nil name_segments) && negb (JS.is_nil path) = true ->
  forallb plain_segment (name_segments ++ dirs ++ leaf :: path) = true ->
  @rewritten_to (posix cwd)
    (@sourceModuleId (posix cwd) options
       (path_under "/" (@baseDir (posix cwd) options) (dirs ++ [leaf]) ++ ".d.ts"))
    ("./" ++ Posix.join_parts path)
    (@sourceModuleId (posix cwd) options
       (path_under "/" (@baseDir (posix cwd) options) (dirs ++ path) ++ ".d.ts")).
Proof.
  intros Hname Hne Hplain.
  apply andb_prop in Hne as [Hname_ne Hpath_ne].
  rewrite !forallb_app in Hplain. apply andb_prop in Hplain as [Hnames Hplain].
  apply andb_prop in Hplain as [Hdirs Hplain]. cbn [forallb] in Hplain.
  apply andb_prop in Hplain as [Hleaf Hpath].
  assert (Hname_ne' : name_segments <> []) by now destruct name_segments.
  assert (Hpath_ne' : path <> []) by now destruct path.
  rewrite <- (join_below cwd options name_segments Hname Hname_ne' Hnames
                dirs leaf path Hpath_ne' Hdirs Hleaf Hpath).
  now apply (@declarationReplacer_relative (posix cwd)).
Qed.

Lemma relative_reference_names_module_witness :
  @declarationReplacer (posix "/home/u") "mylib/a/b" (reference_to "./sub/x")
  = Some (list_ascii_of_string " require('mylib/a/sub/x')").
Proof.
  apply (proj1 (relative_reference_names_module "/home/u" (mylib_options "/base")
                  (JS.strings ["mylib"]) (JS.strings ["a"]) "b" (JS.strings ["sub"; "x"])
                  eq_refl eq_refl eq_refl)
           (reference_to "./sub/x")
           (mkNode StringLiteral (Some ExternalModuleReference) 19 24 "./sub/x" []));
    reflexivity.
Defined.

(** X16. Under the same conditions, in the module of the file
    [dirs/directory/leaf.d.ts], a reference to [../path] is rewritten to
    the module identifier of the file [dirs/path.d.ts]. *)
Theorem parent_reference_names_module (cwd : jsstring) (options : Options.t)
    (name_segments dirs : list jsstring) (directory leaf : jsstring)
    (path : list jsstring) :
  Options.name options = Posix.join_parts name_segments ->
  negb (JS.is_nil name_segments) && negb (JS.is_nil path) = true ->
  forallb plain_segment (name_segments ++ dirs ++ directory :: leaf :: path) = true ->
  @rewritten_to (posix cwd)
    (@sourceModuleId (posix cwd) options
       (path_under "/" (@baseDir (posix cwd) options) (dirs ++ [directory; leaf])
        ++ ".d.ts"))
    ("../" ++ Posix.join_parts path)
    (@sourceModuleId (posix cwd) options
       (path_under "/" (@baseDir (posix cwd) options) (dirs ++ path) ++ ".d.ts")).
Proof.
  intros Hname Hne Hplain.
  apply andb_prop in Hne as [Hname_ne Hpath_ne].
  rewrite !forallb_app in Hplain. apply andb_prop in Hplain as [Hnames Hplain].
  apply andb_prop in Hplain as [Hdirs Hplain]. cbn [forallb] in Hplain.
  apply andb_prop in Hplain as [Hdirectory Hplain].
  apply andb_prop in Hplain as [Hleaf Hpath].
  assert (Hname_ne' : name_segments <> []) by now destruct name_segments.
  assert (Hpath_ne' : path <> []) by now destruct path.
  rewrite <- (join_above cwd options name_segments Hname Hname_ne' Hnames
                dirs directory leaf path Hpath_ne' Hdirs Hdirectory Hleaf Hpath).
  now apply (@declarationReplacer_relative (posix cwd)).
Qed.

Lemma parent_reference_names_module_witness :
  @declarationReplacer (posix "/home/u") "mylib/a/b/c" (reference_to "../x")
  = Some (list_ascii_of_string " require('mylib/a/x')").
Proof.
  apply (proj1 (parent_reference_names_module "/home/u" (mylib_options "/base")
                  (JS.strings ["mylib"]) (JS.strings ["a"]) "b" "c" (JS.strings ["x"])
                  eq_refl eq_refl eq_refl)
           (reference_to "../x")
           (mkNode StringLiteral (Some ExternalModuleReference) 19 24 "../x" []));
    reflexivity.
Defined.

(** X17. A reference that climbs above the base directory loses the
    namespace: on a POSIX host, with a namespace name of one plain segment,
    in the module of a file that lies in the base directory itself, a
    reference to [../path] is rewritten to [path] alone, without the
    namespace name in front. *)
Theorem reference_above_base (cwd : jsstring) (options : Options.t)
    (leaf : jsstring) (path : list jsstring) :
  negb (JS.is_nil path) = true ->
  forallb plain_segment (Options.name options :: leaf :: path) = true ->
  @rewritten_to (posix cwd)
    (@sourceModuleId (posix cwd) options
       (path_under "/" (@baseDir (posix cwd) options) [leaf] ++ ".d.ts"))
    ("../" ++ Posix.join_parts path)
    (Posix.join_parts path).
Proof.
  intros Hne Hplain. cbn [forallb] in Hplain.
  apply andb_prop in Hplain as [Hname Hplain].
  apply andb_prop in Hplain as [Hleaf Hpath].
  assert (Hpath_ne : path <> []) by now destruct path.
  rewrite sourceModuleId_under_posix, <- join_parts_cons.
  pose proof (posix_join_above [] (Options.name options) path
                Hpath_ne eq_refl Hname Hpath) as Hjoin.
  assert (Hdir : Posix.dirname (Posix.join_parts [Options.name options; leaf])
                 = Posix.join_parts [Options.name options]).
  { apply (posix_dirname_leaf [Options.name options] leaf);
      [discriminate|simpl; now rewrite Hname|exact Hleaf]. }
  cbn [app] in Hjoin. rewrite <- Hdir in Hjoin.
  pose proof (@declarationReplacer_relative (posix cwd)
                (Posix.join_parts [Options.name options; leaf])
                ("../" ++ Posix.join_parts path) eq_refl) as Hrewritten.
  refine (eq_ind _ (fun there => @rewritten_to (posix cwd) _ _ there) Hrewritten _ _).
  exact Hjoin.
Qed.

Lemma reference_above_base_witness :
  @declarationReplacer (posix "/home/u") "mylib/b" (reference_to "../x")
  = Some (list_ascii_of_string " require('x')").
Proof.
  apply (proj1 (reference_above_base "/home/u" (mylib_options "/base")
                  "b" (JS.strings ["x"]) eq_refl eq_refl)
           (reference_to "../x")
           (mkNode StringLiteral (Some ExternalModuleReference) 19 24 "../x" []));
    reflexivity.
Defined.

(** ** Module identifiers are distinct *)

Lemma sourceModuleId_under {pathUtil : PathUtil} (options : Options.t)
    (components : list jsstring) :
  separator_free sep components = true ->
  sourceModuleId options (path_under sep (baseDir options) components ++ ".d.ts")
  = Options.name options ++ flat_map (cons "/"%char) components.
Proof.
  intros Hfree. apply separator_free_Forall in Hfree.
  unfold sourceModuleId, path_under. rewrite <- app_assoc.
  change (-5) with (- Z.of_nat (List.length (list_ascii_of_string ".d.ts"))).
  rewrite slice_middle by discriminate.
  now rewrite filenameToMid_path.
Qed.

Lemma split_components (components : list jsstring) :
  separator_free Posix.slash components = true ->
  Posix.split (flat_map (cons Posix.slash) components) = [] :: components.
Proof.
  intros Hfree.
  assert (Hsplit : Posix.split (Posix.join_parts ([] :: components))
                   = [] :: components).
  { apply split_join_parts; [discriminate|]. cbn [forallb]. simpl. exact Hfree. }
  rewrite join_parts_cons in Hsplit. exact Hsplit.
Qed.

(** X18. Two declaration files below the base directory whose path
    components contain neither the separator of the host nor a slash have
    the same module identifier only if they are the same file. *)
Theorem sourceModuleId_injective {pathUtil : PathUtil} (options : Options.t)
    (components components' : list jsstring) :
  separator_free sep (components ++ components') = true ->
  separator_free "/" (components ++ components') = true ->
  sourceModuleId options (path_under sep (baseDir options) components ++ ".d.ts")
  = sourceModuleId options (path_under sep (baseDir options) components' ++ ".d.ts") ->
  components = components'.
Proof.
  unfold separator_free. rewrite !forallb_app.
  intros Hsep Hslash Hid.
  apply andb_prop in Hsep as [Hsep Hsep']. apply andb_prop in Hslash as [Hslash Hslash'].
  rewrite !sourceModuleId_under in Hid by assumption.
  apply app_inv_head in Hid.
  apply (f_equal Posix.split) in Hid.
  rewrite !split_components in Hid by assumption.
  now injection Hid.
Qed.

Lemma sourceModuleId_injective_witness :
  separator_free (@sep backslash_host) (JS.strings ["foo"; "bar"; "foo"; "bar"]) = true
  /\ JS.strings ["foo"; "bar"] = JS.strings ["foo"; "bar"].
Proof.
  split; [reflexivity|].
  apply (@sourceModuleId_injective backslash_host (mylib_options "C:\base")
           (JS.strings ["foo"; "bar"]) (JS.strings ["foo"; "bar"])
           eq_refl eq_refl eq_refl).
Defined.
